(** * Cryptography teaching demo: hex codecs, mutation helpers and the
      SHA-256 avalanche table

    Shallow embedding of the pure logic of two React components:

    - [SignatureDemo.tsx]: [bufferToHex] and [hexToBuffer], the wrappers
      [generateKeyPair], [signMessage] and [verifySignature] over an
      abstract provider, and the component's state, its four handlers and
      its result banners;
    - the hash avalanche component: [sha256HexFromBytes], [hexToBits],
      [hamming], [mutateByteFlip], [mutateCharChange], the body of [run]
      and the table cells rendered from its results.

    JavaScript values are modelled as follows.
    - A string is the list of its UTF-16 code units, each a [Z].
    - A [Uint8Array] is a [list Z] of elements in [0, 256); a store wraps
      modulo 256 and a store outside the array does nothing.
    - The platform functions the components call ([TextEncoder],
      [parseInt], [Number.prototype.toString], [padStart], [toFixed],
      [crypto.subtle.digest]) are modelled from their standards
      (WHATWG Encoding, ECMA-262, FIPS 180-4). *)

From Stdlib Require Import ZArith QArith Qround Qabs Lia.
From stdpp Require Import base list strings gmap.

Local Open Scope Z_scope.

(** ** JavaScript strings and byte arrays *)

Definition jsstring := list Z.

(** The code units of an ASCII literal. *)
Definition js (s : string) : jsstring :=
  map (fun c => Z.of_N (Ascii.N_of_ascii c)) (String.list_ascii_of_string s).

Definition u8 (b : Z) : Prop := 0 <= b < 256.
Definition u16 (c : Z) : Prop := 0 <= c < 65536.

(** Every code unit of a JavaScript string is a 16-bit value. *)
Definition wf_jsstring (s : jsstring) : Prop := Forall u16 s.

(** ** SHA-256 (FIPS 180-4), the digest behind [crypto.subtle.digest] *)

Module SHA256.

Definition add32 (x y : Z) : Z := (x + y) mod 2 ^ 32.

Definition rotr (n x : Z) : Z :=
  Z.lor (Z.shiftr x n) (Z.shiftl x (32 - n) mod 2 ^ 32).

Definition not32 (x : Z) : Z := Z.lxor x 0xFFFFFFFF.

Definition Ch (x y z : Z) : Z := Z.lxor (Z.land x y) (Z.land (not32 x) z).
Definition Maj (x y z : Z) : Z :=
  Z.lxor (Z.lxor (Z.land x y) (Z.land x z)) (Z.land y z).
Definition Sigma0 (x : Z) : Z := Z.lxor (Z.lxor (rotr 2 x) (rotr 13 x)) (rotr 22 x).
Definition Sigma1 (x : Z) : Z := Z.lxor (Z.lxor (rotr 6 x) (rotr 11 x)) (rotr 25 x).
Definition sigma0 (x : Z) : Z := Z.lxor (Z.lxor (rotr 7 x) (rotr 18 x)) (Z.shiftr x 3).
Definition sigma1 (x : Z) : Z := Z.lxor (Z.lxor (rotr 17 x) (rotr 19 x)) (Z.shiftr x 10).

(** The constants are fractional parts of roots of primes: the first 32
    fraction bits of the cube roots of the first 64 primes for [K], and of
    the square roots of the first 8 primes for the initial hash value. *)
Definition primes : list Z :=
  [2; 3; 5; 7; 11; 13; 17; 19; 23; 29; 31; 37; 41; 43; 47; 53; 59; 61; 67; 71; 73; 79;
   83; 89; 97; 101; 103; 107; 109; 113; 127; 131; 137; 139; 149; 151; 157; 163; 167;
   173; 179; 181; 191; 193; 197; 199; 211; 223; 227; 229; 233; 239; 241; 251; 257;
   263; 269; 271; 277; 281; 283; 293; 307; 311].

(** The integer cube root below 2^35, one bit at a time. *)
Definition cbrt (x : Z) : Z :=
  fold_left (fun r k => let r' := r + 2 ^ Z.of_nat k in
                        if r' * r' * r' <=? x then r' else r)
            (rev (seq 0 35)) 0.

Definition K : list Z := map (fun p => cbrt (p * 2 ^ 96) mod 2 ^ 32) primes.

Record state := State { sa : Z; sb : Z; sc : Z; sd : Z; se : Z; sf : Z; sg : Z; sh : Z }.

Definition frac_sqrt (p : Z) : Z := Z.sqrt (p * 2 ^ 64) mod 2 ^ 32.

Definition H0 : state :=
  State (frac_sqrt 2) (frac_sqrt 3) (frac_sqrt 5) (frac_sqrt 7)
        (frac_sqrt 11) (frac_sqrt 13) (frac_sqrt 17) (frac_sqrt 19).

(** Padding: a 1 bit, zero bits up to 56 modulo 64 bytes, then the bit
    length as a 64-bit big-endian integer. *)
Definition be_bytes (n : nat) (x : Z) : list Z :=
  map (fun i => Z.shiftr x (8 * Z.of_nat i) mod 256) (rev (seq 0 n)).

Definition pad (msg : list Z) : list Z :=
  let len := Z.of_nat (length msg) in
  msg ++ [0x80] ++ replicate (Z.to_nat ((55 - len) mod 64)) 0 ++ be_bytes 8 (8 * len).

Definition be_word (bs : list Z) : Z :=
  fold_left (fun acc b => acc * 256 + b) bs 0.

Fixpoint chunks (fuel n : nat) (l : list Z) : list (list Z) :=
  match fuel, l with
  | O, _ | _, [] => []
  | S fuel', _ => take n l :: chunks fuel' n (drop n l)
  end.

(** The sixteen message words of a block, then the 48 derived ones. *)
Definition next_word (W : list Z) : Z :=
  let t := length W in
  add32 (add32 (add32 (sigma1 (nth (t - 2) W 0)) (nth (t - 7) W 0))
               (sigma0 (nth (t - 15) W 0)))
        (nth (t - 16) W 0).

Fixpoint extend (n : nat) (W : list Z) : list Z :=
  match n with
  | O => W
  | S n' => extend n' (W ++ [next_word W])
  end.

Definition schedule (block : list Z) : list Z :=
  extend 48 (map be_word (chunks 16 4 block)).

Definition round (s : state) (kw : Z * Z) : state :=
  let '(k, w) := kw in
  let T1 := add32 (add32 (add32 (add32 (sh s) (Sigma1 (se s))) (Ch (se s) (sf s) (sg s))) k) w in
  let T2 := add32 (Sigma0 (sa s)) (Maj (sa s) (sb s) (sc s)) in
  State (add32 T1 T2) (sa s) (sb s) (sc s) (add32 (sd s) T1) (se s) (sf s) (sg s).

Definition compress (h : state) (block : list Z) : state :=
  let s := fold_left round (zip K (schedule block)) h in
  State (add32 (sa h) (sa s)) (add32 (sb h) (sb s)) (add32 (sc h) (sc s))
        (add32 (sd h) (sd s)) (add32 (se h) (se s)) (add32 (sf h) (sf s))
        (add32 (sg h) (sg s)) (add32 (sh h) (sh s)).

Definition output (s : state) : list Z :=
  be_bytes 4 (sa s) ++ be_bytes 4 (sb s) ++ be_bytes 4 (sc s) ++ be_bytes 4 (sd s) ++
  be_bytes 4 (se s) ++ be_bytes 4 (sf s) ++ be_bytes 4 (sg s) ++ be_bytes 4 (sh s).

Definition digest (msg : list Z) : list Z :=
  let p := pad msg in
  output (fold_left compress (chunks (length p) 64 p) H0).

End SHA256.

(** ** ECMAScript and Web platform functions used by the components *)

(** A Number as the components produce it: an integer or [NaN].  [NaN]
    also stands for [undefined] where a value is read from outside an
    array: both convert to 0 under [ToInt32] and [ToUint8]. *)
Inductive number := NaN | Num (z : Z).

#[global] Instance number_eq_dec : EqDecision number.
Proof. solve_decision. Defined.

Definition ToInt32 (x : number) : Z :=
  match x with
  | NaN => 0
  | Num z => (z + 2 ^ 31) mod 2 ^ 32 - 2 ^ 31
  end.

Definition ToUint8 (x : number) : Z :=
  match x with
  | NaN => 0
  | Num z => z mod 256
  end.

(** [x ^ y] on Numbers. *)
Definition js_xor (x y : number) : number := Num (Z.lxor (ToInt32 x) (ToInt32 y)).

(** [new Uint8Array(n)], [arr[i]] and [arr[i] = v]. *)
Definition new_Uint8Array (n : nat) : list Z := replicate n 0.

Definition u8_load (arr : list Z) (i : Z) : number :=
  if i <? 0 then NaN
  else match arr !! Z.to_nat i with
       | Some b => Num b
       | None => NaN
       end.

Definition u8_store (arr : list Z) (i : Z) (v : number) : list Z :=
  if i <? 0 then arr else <[Z.to_nat i := ToUint8 v]> arr.

(** [TextEncoder.prototype.encode]: the string is first made a sequence of
    scalar values (a surrogate pair is one code point, a lone surrogate
    becomes U+FFFD), and every scalar value is written in UTF-8. *)
Definition is_high_surrogate (c : Z) : bool := (0xD800 <=? c) && (c <=? 0xDBFF).
Definition is_low_surrogate (c : Z) : bool := (0xDC00 <=? c) && (c <=? 0xDFFF).

Definition utf8_code_point (cp : Z) : list Z :=
  if cp <? 0x80 then [cp]
  else if cp <? 0x800 then
    [Z.lor 0xC0 (Z.shiftr cp 6); Z.lor 0x80 (Z.land cp 0x3F)]
  else if cp <? 0x10000 then
    [Z.lor 0xE0 (Z.shiftr cp 12); Z.lor 0x80 (Z.land (Z.shiftr cp 6) 0x3F);
     Z.lor 0x80 (Z.land cp 0x3F)]
  else
    [Z.lor 0xF0 (Z.shiftr cp 18); Z.lor 0x80 (Z.land (Z.shiftr cp 12) 0x3F);
     Z.lor 0x80 (Z.land (Z.shiftr cp 6) 0x3F); Z.lor 0x80 (Z.land cp 0x3F)].

Fixpoint TextEncoder_encode (s : jsstring) : list Z :=
  match s with
  | [] => []
  | c :: rest =>
    if is_high_surrogate c then
      match rest with
      | d :: rest' =>
        if is_low_surrogate d then
          utf8_code_point (0x10000 + (c - 0xD800) * 0x400 + (d - 0xDC00))
            ++ TextEncoder_encode rest'
        else utf8_code_point 0xFFFD ++ TextEncoder_encode rest
      | [] => utf8_code_point 0xFFFD
      end
    else if is_low_surrogate c then utf8_code_point 0xFFFD ++ TextEncoder_encode rest
    else utf8_code_point c ++ TextEncoder_encode rest
  end.

(** [Number.prototype.toString(radix)] on integers and [NaN]. *)
Definition digit_char (d : Z) : Z := if d <? 10 then 48 + d else 87 + d.

Fixpoint digits (fuel : nat) (radix n : Z) (acc : jsstring) : jsstring :=
  match fuel with
  | O => acc
  | S fuel' =>
    let acc' := digit_char (n mod radix) :: acc in
    if n / radix =? 0 then acc' else digits fuel' radix (n / radix) acc'
  end.

Definition digits_of (radix n : Z) : jsstring :=
  digits (S (Z.to_nat (Z.log2 n))) radix n [].

Definition Number_toString (radix : Z) (x : number) : jsstring :=
  match x with
  | NaN => js "NaN"
  | Num z => if z <? 0 then js "-" ++ digits_of radix (- z) else digits_of radix z
  end.

(** [String.prototype.padStart(targetLength, fillString)]. *)
Definition padStart (targetLength : nat) (fill : jsstring) (s : jsstring) : jsstring :=
  let fillLen := (targetLength - length s)%nat in
  match fill with
  | [] => s
  | _ => take fillLen (concat (replicate fillLen fill)) ++ s
  end.

(** [String.prototype.substr(start, length)] for a start inside the
    string, and [split('')]. *)
Definition substr (s : jsstring) (start len : nat) : jsstring := take len (drop start s).

Definition split_units (s : jsstring) : list jsstring := map (fun c => [c]) s.

(** [parseInt(string, 16)].  Leading white space is skipped, a sign and
    then a [0x] or [0X] prefix are read, and the longest run of hex digits
    that follows is the value; there is no value when that run is empty. *)
Definition is_white_space (c : Z) : bool :=
  bool_decide (c ∈ [0x09; 0x0A; 0x0B; 0x0C; 0x0D; 0x20; 0xA0; 0x1680; 0x2028; 0x2029;
                     0x202F; 0x205F; 0x3000; 0xFEFF])
  || (0x2000 <=? c) && (c <=? 0x200A).

Definition hex_digit_value (c : Z) : option Z :=
  if (48 <=? c) && (c <=? 57) then Some (c - 48)
  else if (97 <=? c) && (c <=? 102) then Some (c - 87)
  else if (65 <=? c) && (c <=? 70) then Some (c - 55)
  else None.

Fixpoint trim_start (s : jsstring) : jsstring :=
  match s with
  | c :: rest => if is_white_space c then trim_start rest else s
  | [] => []
  end.

Definition strip_hex_prefix (s : jsstring) : jsstring :=
  match s with
  | 48 :: x :: rest => if (x =? 120) || (x =? 88) then rest else s
  | _ => s
  end.

(** The longest prefix of hex digits, read most significant digit first;
    [None] when the prefix is empty. *)
Fixpoint hex_run (s : jsstring) (acc : option Z) : option Z :=
  match s with
  | c :: rest =>
    match hex_digit_value c with
    | Some d => hex_run rest (Some (16 * default 0 acc + d))
    | None => acc
    end
  | [] => acc
  end.

Definition parseInt16 (s : jsstring) : number :=
  let s1 := trim_start s in
  let sign := match s1 with 45 :: _ => -1 | _ => 1 end in
  let s2 := match s1 with
            | c :: rest => if (c =? 43) || (c =? 45) then rest else s1
            | [] => s1
            end in
  match hex_run (strip_hex_prefix s2) None with
  | Some v => Num (sign * v)
  | None => NaN
  end.

(** [Number.prototype.toFixed(f)] on an exactly known value: the integer
    [n] nearest to [x * 10^f], the larger one on a tie, printed with [f]
    fraction digits. *)
Definition toFixed (f : nat) (x : Q) : jsstring :=
  let neg := Qlt_le_dec x 0 in
  let ax := Qabs x in
  let n := Qfloor (Qplus (Qmult ax (inject_Z (10 ^ Z.of_nat f))) (1 # 2)) in
  let m := digits_of 10 n in
  let m := if (length m <=? f)%nat then replicate (f + 1 - length m)%nat 48 ++ m else m in
  let k := length m in
  let body := match f with
              | O => m
              | _ => take (k - f) m ++ js "." ++ drop (k - f) m
              end in
  if neg then js "-" ++ body else body.

(** ** [SignatureDemo.tsx]: hex codecs *)

Definition bufferToHex (buf : list Z) : jsstring :=
  concat (map (fun b => padStart 2 (js "0") (Number_toString 16 (Num b))) buf).

Fixpoint hexToBuffer_loop (fuel : nat) (hex : jsstring) (i : nat) (buf : list Z) : list Z :=
  match fuel with
  | O => buf
  | S fuel' =>
    if (i <? length hex)%nat then
      hexToBuffer_loop fuel' hex (i + 2)
        (u8_store buf (Z.of_nat i / 2) (parseInt16 (substr hex i 2)))
    else buf
  end.

(** [hex.length / 2] is truncated by the array constructor; at most
    [hex.length] iterations run, each advancing [i] by two. *)
Definition hexToBuffer (hex : jsstring) : list Z :=
  hexToBuffer_loop (length hex) hex 0 (new_Uint8Array (length hex / 2)).

(** ** Hash avalanche component *)

Definition sha256HexFromBytes (bytes : list Z) : jsstring :=
  let arr := SHA256.digest bytes in
  concat (map (fun b => padStart 2 (js "0") (Number_toString 16 (Num b))) arr).

Definition sha256Hex (input : jsstring) : jsstring :=
  sha256HexFromBytes (TextEncoder_encode input).

Definition hexToBits (hex : jsstring) : jsstring :=
  concat (map (fun h => padStart 4 (js "0") (Number_toString 2 (parseInt16 h)))
              (split_units hex)).

Fixpoint hamming_loop (fuel : nat) (a b : jsstring) (i : nat) (cnt : Z) : Z :=
  match fuel with
  | O => cnt
  | S fuel' =>
    if (i <? length a `min` length b)%nat then
      hamming_loop fuel' a b (S i)
        (if bool_decide (a !! i ≠ b !! i) then cnt + 1 else cnt)
    else cnt
  end.

Definition hamming (a b : jsstring) : Z :=
  hamming_loop (length a `min` length b) a b 0 0.

Definition mutateByteFlip (input : jsstring) (byteIndex bitMask : Z) : list Z :=
  let enc := TextEncoder_encode input in
  if (length enc =? 0)%nat then enc
  else
    let arr := enc in
    let i := Z.rem byteIndex (Z.of_nat (length arr)) in
    u8_store arr i (js_xor (u8_load arr i) (Num bitMask)).

Definition mutateCharChange (input : jsstring) (index : Z) (newChar : jsstring) : list Z :=
  let enc := TextEncoder_encode input in
  if (length enc =? 0)%nat then enc
  else
    let arr := enc in
    let i := Z.rem (index + Z.of_nat (length arr)) (Z.of_nat (length arr)) in
    u8_store arr i (u8_load (TextEncoder_encode newChar) 0).

Record variant := Variant { v_name : jsstring; v_bytes : list Z }.

Record result := Result {
  name : jsstring; hex : jsstring; bits : jsstring; bytes : list Z }.

Definition variants (input : jsstring) : list variant :=
  [ Variant (js "original") (TextEncoder_encode input);
    Variant (js "append space") (TextEncoder_encode (input ++ js " "));
    Variant (js "change first char") (mutateCharChange input 0 (js "Z"));
    Variant (js "flip one bit in first byte") (mutateByteFlip input 0 1);
    Variant (js "flip 0x80 bit in first byte") (mutateByteFlip input 0 0x80);
    Variant (js "change last char") (mutateCharChange input (-1) (js "z")) ].

(** The [for ... of] loop of [run] pushes one result per variant. *)
Definition run (input : jsstring) : list result :=
  map (fun v =>
         let hex := sha256HexFromBytes (v_bytes v) in
         let bits := hexToBits hex in
         Result (v_name v) hex bits (v_bytes v))
      (variants input).

(** The table body.  [dist] is the constant of the same name in the row
    callback; [(dist / 256) * 100] is exact in binary floating point for
    every count below 2^46, so it is computed here as a rational. *)
Definition baseBits (results : list result) : jsstring :=
  match results with
  | r :: _ => bits r
  | [] => []
  end.

Definition dist (results : list result) (r : result) : Z :=
  match baseBits results with
  | [] => 0
  | base => hamming base (bits r)
  end.

Definition pct (d : Z) : jsstring :=
  toFixed 1 (Qmult (Qdiv (inject_Z d) (inject_Z 256)) (inject_Z 100)).

Record row := Row { row_name : jsstring; row_hex : jsstring; row_cell : jsstring }.

Definition render (results : list result) : list row :=
  imap (fun i r =>
          match i with
          | O => Row (name r) (hex r) (js "-")
          | _ =>
            let d := dist results r in
            Row (name r) (hex r)
                (Number_toString 10 (Num d) ++ js "/256 bits changed (" ++ pct d ++ js "%)")
          end)
       results.

(** ** The mutation helpers over a store of arrays

    [TextEncoder.encode] and [new Uint8Array(enc)] each allocate a fresh
    array, and the element store writes into the copy.  Arrays live in a
    store indexed by reference, so that sharing is visible. *)

Module Store.

Definition alloc (bs : list Z) (h : gmap nat (list Z)) : nat * gmap nat (list Z) :=
  let l := fresh (dom h) in (l, <[l := bs]> h).

Definition contents (h : gmap nat (list Z)) (l : nat) : list Z := default [] (h !! l).

Definition mutateByteFlip (input : jsstring) (byteIndex bitMask : Z)
    (h : gmap nat (list Z)) : nat * gmap nat (list Z) :=
  let '(enc, h1) := alloc (TextEncoder_encode input) h in
  if (length (contents h1 enc) =? 0)%nat then (enc, h1)
  else
    let '(arr, h2) := alloc (contents h1 enc) h1 in
    let i := Z.rem byteIndex (Z.of_nat (length (contents h2 arr))) in
    (arr, <[arr := u8_store (contents h2 arr) i
                     (js_xor (u8_load (contents h2 arr) i) (Num bitMask))]> h2).

Definition mutateCharChange (input : jsstring) (index : Z) (newChar : jsstring)
    (h : gmap nat (list Z)) : nat * gmap nat (list Z) :=
  let '(enc, h1) := alloc (TextEncoder_encode input) h in
  if (length (contents h1 enc) =? 0)%nat then (enc, h1)
  else
    let '(arr, h2) := alloc (contents h1 enc) h1 in
    let n := Z.of_nat (length (contents h2 arr)) in
    let i := Z.rem (index + n) n in
    let '(c, h3) := alloc (TextEncoder_encode newChar) h2 in
    (arr, <[arr := u8_store (contents h3 arr) i (u8_load (contents h3 c) 0)]> h3).

End Store.

(** ** How a call ends *)

Inductive error := InvalidHexError.

Inductive outcome (A : Type) :=
| Returns (a : A)
| Throws (e : error).
Arguments Returns {A} a.
Arguments Throws {A} e.

(** [hexToBuffer] has no [throw], and nothing it calls throws: [parseInt]
    answers [NaN] where there is no digit, and a typed array ignores a
    store outside its bounds.  Every call returns. *)
Definition hexToBuffer_outcome (hex : jsstring) : outcome (list Z) :=
  Returns (hexToBuffer hex).

Definition valid_hex (hex : jsstring) : Prop :=
  Nat.Even (length hex) ∧ Forall (fun c => is_Some (hex_digit_value c)) hex.

(** ** Reference notions the properties are stated with *)

Definition lower_hex_digit (c : Z) : Prop := c ∈ js "0123456789abcdef".

Definition bit_char (b : bool) : Z := if b then 49 else 48.

(** The bits of a value, most significant first. *)
Definition bits_msb (width : nat) (v : Z) : jsstring :=
  map (fun j => bit_char (Z.testbit v (Z.of_nat j))) (rev (seq 0 width)).

(** The number of positions below both lengths at which two strings differ. *)
Definition differing_positions (a b : jsstring) : nat :=
  length (filter (fun i => a !! i ≠ b !! i) (seq 0 (length a `min` length b))).

(** What one byte contributes to the hex text, and the byte [hexToBuffer]
    reads from the two code units at [2k]. *)
Definition byte_hex (b : Z) : jsstring :=
  padStart 2 (js "0") (Number_toString 16 (Num b)).

Definition decoded_byte (hex : jsstring) (k : nat) : Z :=
  ToUint8 (parseInt16 (substr hex (2 * k) 2)).

(** The code units of the 22 hex digits. *)
Definition hex_digit_codes : list Z := seqZ 48 10 ++ seqZ 65 6 ++ seqZ 97 6.

(** The value of a hex digit, 0 for any other code unit. *)
Definition hex_value (c : Z) : Z := default 0 (hex_digit_value c).

(** Code unit number [d] of ["0123456789abcdef"]. *)
Definition lower_hex_of (d : Z) : Z := nth (Z.to_nat d) (js "0123456789abcdef") 0.

(** The four bit characters [hexToBits] writes for one code unit. *)
Definition nibble_bits (c : Z) : jsstring :=
  padStart 4 (js "0") (Number_toString 2 (parseInt16 [c])).

(** The percentage of [d] in 256 with one fraction digit: [n] tenths,
    where [n] is the integer nearest to [1000 d / 256], the larger one
    on a tie. *)
Definition one_decimal_percent (d : Z) : jsstring :=
  let n := (1000 * d + 128) / 256 in
  digits_of 10 (n / 10) ++ js "." ++ digits_of 10 (n mod 10).

(** The number a string of decimal digits denotes. *)
Definition decimal_value (s : jsstring) : Z :=
  fold_left (fun acc c => 10 * acc + (c - 48)) s 0.

(** The text of the comparison column for a distance [d]. *)
Definition distance_cell (d : Z) : jsstring :=
  digits_of 10 d ++ js "/256 bits changed (" ++ one_decimal_percent d ++ js "%)".

(** The differing positions counted along the two strings, up to the end
    of the shorter one. *)
Fixpoint count_diff (a b : jsstring) : Z :=
  match a, b with
  | x :: a', y :: b' => (if bool_decide (x = y) then 0 else 1) + count_diff a' b'
  | _, _ => 0
  end.

(** The number of bits set among the low [w] bits of [x], and the number
    of bits in which two byte sequences differ. *)
Definition popcount (w : nat) (x : Z) : Z :=
  Z.of_nat (length (filter (fun j => Z.testbit x (Z.of_nat j) = true) (seq 0 w))).

Definition bit_distance (xs ys : list Z) : Z :=
  foldr Z.add 0 (zip_with (fun x y => popcount 8 (Z.lxor x y)) xs ys).

(** Letter case of the hex digits [a]..[f]. *)
Definition to_lower_hex (c : Z) : Z := if (65 <=? c) && (c <=? 70) then c + 32 else c.
Definition to_upper_hex (c : Z) : Z := if (97 <=? c) && (c <=? 102) then c - 32 else c.

(** What each code unit contributes to [hexToBits]: four bits for a hex
    digit, the text [0NaN] for anything else. *)
Definition bits_or_NaN (c : Z) : jsstring :=
  match hex_digit_value c with
  | Some v => bits_msb 4 v
  | None => js "0NaN"
  end.

(** ** [SignatureDemo.tsx]: key pair, signing, verification and the
       component state

    [crypto.subtle] is a parameter: key generation and signing draw fresh
    randomness, passed here as an explicit argument; verification is a
    function of the public key, the signature bytes and the data.  Both
    wrappers pass the same algorithm ([ECDSA] with [SHA-256]), which is
    part of the parameter.  A handler is modelled by the state it leaves
    when the provider's promise is fulfilled, so [loading] is back to
    [false]. *)

Section SignatureDemo.
Variables PrivateKey PublicKey Entropy : Type.
Variable subtle_generateKey : Entropy → PrivateKey * PublicKey.
Variable subtle_sign : PrivateKey → list Z → Entropy → list Z.
Variable subtle_verify : PublicKey → list Z → list Z → bool.

Record KeyPair := { privateKey : PrivateKey; publicKey : PublicKey }.

Definition generateKeyPair (e : Entropy) : KeyPair :=
  let pair := subtle_generateKey e in
  {| privateKey := pair.1; publicKey := pair.2 |}.

Definition signMessage (message : jsstring) (privateKey : PrivateKey) (e : Entropy)
    : list Z :=
  let enc := TextEncoder_encode message in
  subtle_sign privateKey enc e.

Definition verifySignature (message : jsstring) (signature : list Z)
    (publicKey : PublicKey) : bool :=
  let enc := TextEncoder_encode message in
  subtle_verify publicKey signature enc.

Record demo := Demo {
  keyPair : option KeyPair;
  message : jsstring;
  signature : jsstring;
  isValid : option bool;
  loading : bool;
  tamperedMessage : jsstring;
  tamperedSignature : jsstring }.

Definition initial : demo :=
  Demo None (js "Sign this message") [] None false [] [].

(** A string is truthy when it is not empty. *)
Definition truthy (s : jsstring) : bool :=
  match s with
  | [] => false
  | _ => true
  end.

Definition handleSign (e : Entropy) (s : demo) : demo :=
  match keyPair s with
  | None => s
  | Some kp =>
    let sig := signMessage (message s) (privateKey kp) e in
    Demo (keyPair s) (message s) (bufferToHex sig) None false [] []
  end.

Definition handleVerify (s : demo) : demo :=
  match keyPair s with
  | None => s
  | Some kp =>
    if truthy (signature s) then
      let sig := hexToBuffer (signature s) in
      let valid := verifySignature (message s) sig (publicKey kp) in
      Demo (keyPair s) (message s) (signature s) (Some valid) false [] []
    else s
  end.

Definition handleVerifyTamperedMessage (s : demo) : demo :=
  match keyPair s with
  | None => s
  | Some kp =>
    if truthy (signature s) then
      let sig := hexToBuffer (signature s) in
      let valid := verifySignature (tamperedMessage s) sig (publicKey kp) in
      Demo (keyPair s) (message s) (signature s) (Some valid) false (tamperedMessage s) []
    else s
  end.

Definition handleVerifyTamperedSignature (s : demo) : demo :=
  match keyPair s with
  | None => s
  | Some kp =>
    if truthy (tamperedSignature s) then
      let sig := hexToBuffer (tamperedSignature s) in
      let valid := verifySignature (message s) sig (publicKey kp) in
      Demo (keyPair s) (message s) (signature s) (Some valid) false [] (tamperedSignature s)
    else s
  end.

(** What happens to the component: the effect run on mount, the three
    text areas, and the four buttons. *)
Inductive event :=
| Mount (e : Entropy)
| SetMessage (m : jsstring)
| SetTamperedMessage (m : jsstring)
| SetTamperedSignature (m : jsstring)
| Sign (e : Entropy)
| Verify
| VerifyTamperedMessage
| VerifyTamperedSignature.

Definition step (s : demo) (ev : event) : demo :=
  match ev with
  | Mount e =>
    Demo (Some (generateKeyPair e)) (message s) (signature s) (isValid s) (loading s)
         (tamperedMessage s) (tamperedSignature s)
  | SetMessage m =>
    Demo (keyPair s) m (signature s) (isValid s) (loading s)
         (tamperedMessage s) (tamperedSignature s)
  | SetTamperedMessage m =>
    Demo (keyPair s) (message s) (signature s) (isValid s) (loading s)
         m (tamperedSignature s)
  | SetTamperedSignature m =>
    Demo (keyPair s) (message s) (signature s) (isValid s) (loading s)
         (tamperedMessage s) m
  | Sign e => handleSign e s
  | Verify => handleVerify s
  | VerifyTamperedMessage => handleVerifyTamperedMessage s
  | VerifyTamperedSignature => handleVerifyTamperedSignature s
  end.

(** The three result banners of the verify section, which is shown only
    while there is a signature. *)
Definition shows_valid (s : demo) : bool :=
  truthy (signature s) && bool_decide (isValid s = Some true).

Definition shows_message_changed (s : demo) : bool :=
  truthy (signature s) && bool_decide (isValid s = Some false) && truthy (tamperedMessage s).

Definition shows_signature_changed (s : demo) : bool :=
  truthy (signature s) && bool_decide (isValid s = Some false)
  && truthy (tamperedSignature s).

End SignatureDemo.

Arguments privateKey {_ _} _.
Arguments publicKey {_ _} _.
Arguments Demo {_ _} _ _ _ _ _ _ _.
Arguments keyPair {_ _} _.
Arguments message {_ _} _.
Arguments signature {_ _} _.
Arguments isValid {_ _} _.
Arguments loading {_ _} _.
Arguments tamperedMessage {_ _} _.
Arguments tamperedSignature {_ _} _.
Arguments initial {_ _}.
Arguments generateKeyPair {_ _ _} _ _.
Arguments signMessage {_ _} _ _ _ _.
Arguments verifySignature {_} _ _ _ _.
Arguments handleSign {_ _ _} _ _ _.
Arguments handleVerify {_ _} _ _.
Arguments handleVerifyTamperedMessage {_ _} _ _.
Arguments handleVerifyTamperedSignature {_ _} _ _.
Arguments step {_ _ _} _ _ _ _ _.
Arguments shows_valid {_ _} _.
Arguments shows_message_changed {_ _} _.
Arguments shows_signature_changed {_ _} _.
Arguments Mount {_} _.
Arguments SetMessage {_} _.
Arguments SetTamperedMessage {_} _.
Arguments SetTamperedSignature {_} _.
Arguments Sign {_} _.
Arguments Verify {_}.
Arguments VerifyTamperedMessage {_}.
Arguments VerifyTamperedSignature {_}.

(** A provider on which the assumptions made of [crypto.subtle] can be
    seen to hold together: keys are numbers, the signature of some data is
    the digest of the key followed by the data, and verification
    recomputes it. *)
Definition digest_generateKey (e : Z) : Z * Z := (e, e).
Definition digest_sign (k : Z) (data : list Z) (e : Z) : list Z := SHA256.digest (k :: data).
Definition digest_verify (k : Z) (sig data : list Z) : bool :=
  bool_decide (sig = SHA256.digest (k :: data)).

Definition sample_demo : demo Z Z :=
  Demo (Some (Build_KeyPair Z Z 7 7)) (js "Sign this message") (bufferToHex [10; 255])
       None false (js "Sign that message") (bufferToHex [10; 255] ++ js "0").

Definition mixed_case_demo : demo Z Z :=
  Demo (Some (Build_KeyPair Z Z 7 7)) (js "Sign this message") (js "0aff")
       None false [] (js "0aFfz").

(** ** Sanity checks of the platform models on known values *)

Example sha256_constants :
  take 2 SHA256.K = [0x428a2f98; 0x71374491] ∧ last SHA256.K = Some 0xc67178f2
  ∧ SHA256.sa SHA256.H0 = 0x6a09e667 ∧ SHA256.sh SHA256.H0 = 0x5be0cd19.
Proof. vm_compute. repeat split. Qed.

Example sha256_abc :
  sha256Hex (js "abc")
  = js "ba7816bf8f01cfea414140de5dae2223b00361a396177a9cb410ff61f20015ad".
Proof. vm_compute. reflexivity. Qed.

Example sha256_empty :
  sha256Hex []
  = js "e3b0c44298fc1c149afbf4c8996fb92427ae41e4649b934ca495991b7852b855".
Proof. vm_compute. reflexivity. Qed.

Example sha256_two_blocks :
  sha256Hex (js "abcdbcdecdefdefgefghfghighijhijkijkljklmklmnlmnomnopnopq")
  = js "248d6a61d20638b8e5c026930c3e6039a33ce45964ff2167f6ecedd419db06c1".
Proof. vm_compute. reflexivity. Qed.

Example encode_mixed :
  TextEncoder_encode [0xD83D; 0xDE00; 0xE9; 0x20AC; 0xD800; 0x41; 0xDC00]
  = [0xF0; 0x9F; 0x98; 0x80; 0xC3; 0xA9; 0xE2; 0x82; 0xAC; 0xEF; 0xBF; 0xBD; 0x41;
     0xEF; 0xBF; 0xBD].
Proof. reflexivity. Qed.

Example parseInt16_samples :
  map parseInt16 [js "ff"; js "0x"; js "0x1f"; js " f"; js "-1"; js "zz"; js "1z"; js "+A"]
  = [Num 255; NaN; Num 31; Num 15; Num (-1); NaN; Num 1; Num 10].
Proof. reflexivity. Qed.

Example toFixed_samples :
  map (toFixed 1) [12.25%Q; 0%Q; 100%Q; (1 # 3)%Q]
  = [js "12.3"; js "0.0"; js "100.0"; js "0.3"].
Proof. vm_compute. reflexivity. Qed.

Example hexToBits_sample : hexToBits (js "0a5F") = js "0000101001011111".
Proof. vm_compute. reflexivity. Qed.

Example hamming_sample : hamming (js "0101") (js "1100110") = 2.
Proof. vm_compute. reflexivity. Qed.

(** ** The digest is 32 bytes *)

Lemma be_bytes_length n x : length (SHA256.be_bytes n x) = n.
Proof. unfold SHA256.be_bytes. by rewrite length_map, length_rev, length_seq. Qed.

Lemma be_bytes_u8 n x : Forall u8 (SHA256.be_bytes n x).
Proof.
  unfold SHA256.be_bytes. apply Forall_map, Forall_forall. intros i _.
  unfold u8. simpl. apply Z.mod_pos_bound. lia.
Qed.

Lemma digest_length msg : length (SHA256.digest msg) = 32%nat.
Proof.
  unfold SHA256.digest, SHA256.output.
  rewrite !length_app, !be_bytes_length. reflexivity.
Qed.

Lemma digest_u8 msg : Forall u8 (SHA256.digest msg).
Proof.
  unfold SHA256.digest, SHA256.output.
  repeat (apply Forall_app; split); apply be_bytes_u8.
Qed.

(** ** Checking a property of every byte by evaluation *)

Lemma u8_forallb (P : Z → bool) :
  forallb P (seqZ 0 256) = true → ∀ b, u8 b → P b = true.
Proof.
  intros H b Hb. rewrite forallb_forall in H. apply H.
  apply list_elem_of_In, elem_of_seqZ. unfold u8 in Hb. lia.
Qed.

Lemma bufferToHex_unfold buf : bufferToHex buf = concat (map byte_hex buf).
Proof. reflexivity. Qed.

Lemma byte_hex_digits b :
  u8 b → byte_hex b = [digit_char (b / 16); digit_char (b mod 16)].
Proof.
  intros Hb.
  apply (u8_forallb
           (fun b => bool_decide (byte_hex b = [digit_char (b / 16); digit_char (b mod 16)])))
    in Hb; [by apply bool_decide_eq_true in Hb | by vm_compute].
Qed.

Lemma parseInt16_byte_hex b : u8 b → parseInt16 (byte_hex b) = Num b.
Proof.
  intros Hb.
  apply (u8_forallb (fun b => bool_decide (parseInt16 (byte_hex b) = Num b))) in Hb;
    [by apply bool_decide_eq_true in Hb | by vm_compute].
Qed.

(** ** What [hexToBuffer] computes on any string *)

Lemma u8_store_nat buf (k : nat) v :
  u8_store buf (Z.of_nat (2 * k) / 2) v = <[k := ToUint8 v]> buf.
Proof.
  unfold u8_store.
  replace (Z.of_nat (2 * k) / 2) with (Z.of_nat k)
    by (rewrite Nat2Z.inj_mul, Z.mul_comm, Z.div_mul; lia).
  destruct (Z.ltb_spec (Z.of_nat k) 0); [lia |]. by rewrite Nat2Z.id.
Qed.

Lemma hexToBuffer_loop_spec hex fuel k buf :
  length buf = (length hex / 2)%nat →
  (length hex ≤ 2 * k + 2 * fuel)%nat →
  hexToBuffer_loop fuel hex (2 * k) buf
  = take k buf ++ map (decoded_byte hex) (seq k (length hex / 2 - k)).
Proof.
  set (m := (length hex / 2)%nat).
  assert (Hm : (2 * m ≤ length hex < 2 * m + 2)%nat).
  { subst m. pose proof (Nat.div_mod_eq (length hex) 2).
    pose proof (Nat.mod_upper_bound (length hex) 2). lia. }
  assert (Hdone : ∀ k buf, length buf = m → (length hex ≤ 2 * k)%nat →
            buf = take k buf ++ map (decoded_byte hex) (seq k (m - k))).
  { intros k' buf' Hlen Hk. replace (m - k')%nat with 0%nat by lia.
    simpl. rewrite app_nil_r, take_ge; [done | lia]. }
  revert k buf. induction fuel as [|fuel IH]; intros k buf Hlen Hfuel;
    cbn [hexToBuffer_loop].
  - apply Hdone; [done | lia].
  - destruct (Nat.ltb_spec (2 * k) (length hex)) as [Hlt | Hge].
    + rewrite u8_store_nat. replace (2 * k + 2)%nat with (2 * S k)%nat by lia.
      rewrite IH; [| by rewrite length_insert | lia].
      destruct (decide (k < m)%nat) as [Hk | Hk].
      * replace (m - k)%nat with (S (m - S k)) by lia. simpl.
        rewrite (take_S_r _ _ (decoded_byte hex k)).
        -- rewrite take_insert_ge by lia. by rewrite <- app_assoc.
        -- apply list_lookup_insert_eq. lia.
      * rewrite list_insert_ge by lia.
        replace (m - S k)%nat with 0%nat by lia.
        replace (m - k)%nat with 0%nat by lia.
        rewrite !take_ge by lia. done.
    + apply Hdone; [done | lia].
Qed.

Lemma hexToBuffer_spec hex :
  hexToBuffer hex = map (decoded_byte hex) (seq 0 (length hex / 2)).
Proof.
  unfold hexToBuffer.
  rewrite (hexToBuffer_loop_spec hex (length hex) 0).
  - by rewrite Nat.sub_0_r.
  - unfold new_Uint8Array. by rewrite length_replicate.
  - lia.
Qed.

Lemma hexToBuffer_length hex : length (hexToBuffer hex) = (length hex / 2)%nat.
Proof. by rewrite hexToBuffer_spec, length_map, length_seq. Qed.

Lemma ToUint8_u8 v : u8 (ToUint8 v).
Proof.
  unfold u8. destruct v; simpl; [lia |]. apply Z.mod_pos_bound. lia.
Qed.

Lemma hexToBuffer_u8 hex : Forall u8 (hexToBuffer hex).
Proof.
  rewrite hexToBuffer_spec. apply Forall_map, Forall_forall.
  intros k _. apply ToUint8_u8.
Qed.

(** ** The encoder writes two code units per byte *)

Lemma bufferToHex_cons b buf :
  u8 b → bufferToHex (b :: buf) = digit_char (b / 16) :: digit_char (b mod 16) :: bufferToHex buf.
Proof.
  intros Hb. rewrite !bufferToHex_unfold. simpl. by rewrite byte_hex_digits.
Qed.

Lemma bufferToHex_length buf :
  Forall u8 buf → length (bufferToHex buf) = (2 * length buf)%nat.
Proof.
  induction 1 as [|b buf Hb _ IH]; [done |].
  rewrite bufferToHex_cons by done. simpl. rewrite IH. lia.
Qed.

Lemma bufferToHex_substr buf k b :
  Forall u8 buf → buf !! k = Some b → substr (bufferToHex buf) (2 * k) 2 = byte_hex b.
Proof.
  intros Hbuf. revert k. induction Hbuf as [|x buf Hx _ IH]; intros k Hk; [done |].
  rewrite bufferToHex_cons by done. destruct k as [|k]; simpl in Hk.
  - injection Hk as ->. by rewrite byte_hex_digits.
  - replace (2 * S k)%nat with (S (S (2 * k))) by lia. unfold substr in *. simpl.
    by apply IH.
Qed.

(** ** Hex digits *)

Lemma hex_digit_value_codes c :
  is_Some (hex_digit_value c) → c ∈ hex_digit_codes.
Proof.
  unfold hex_digit_value, hex_digit_codes. intros [v Hv].
  rewrite !elem_of_app, !elem_of_seqZ.
  repeat case_match; try discriminate;
    repeat match goal with
           | H : _ && _ = true |- _ => apply andb_prop in H as [? ?]
           end; lia.
Qed.

Lemma hex_codes_forallb (P : Z → bool) :
  forallb P hex_digit_codes = true → ∀ c, is_Some (hex_digit_value c) → P c = true.
Proof.
  intros H c Hc. rewrite forallb_forall in H.
  by apply H, list_elem_of_In, hex_digit_value_codes.
Qed.

Lemma parseInt16_pair c1 c2 :
  is_Some (hex_digit_value c1) → is_Some (hex_digit_value c2) →
  parseInt16 [c1; c2] = Num (16 * hex_value c1 + hex_value c2).
Proof.
  intros H1 H2.
  apply (hex_codes_forallb
           (fun c1 => forallb
              (fun c2 => bool_decide
                 (parseInt16 [c1; c2] = Num (16 * hex_value c1 + hex_value c2)))
              hex_digit_codes)) in H1; [| by vm_compute].
  rewrite forallb_forall in H1.
  eapply bool_decide_eq_true_1, H1, list_elem_of_In, hex_digit_value_codes, H2.
Qed.

Lemma nibble_bits_hex c :
  is_Some (hex_digit_value c) → nibble_bits c = bits_msb 4 (hex_value c).
Proof.
  intros Hc.
  apply (hex_codes_forallb
           (fun c => bool_decide (nibble_bits c = bits_msb 4 (hex_value c)))) in Hc;
    [by apply bool_decide_eq_true in Hc | by vm_compute].
Qed.

Lemma digit_char_lower_hex b :
  u8 b →
  digit_char (b / 16) = lower_hex_of (b / 16) ∧ digit_char (b mod 16) = lower_hex_of (b mod 16)
  ∧ lower_hex_digit (digit_char (b / 16)) ∧ lower_hex_digit (digit_char (b mod 16)).
Proof.
  intros Hb. unfold lower_hex_digit.
  apply (u8_forallb
           (fun b => bool_decide
              (digit_char (b / 16) = lower_hex_of (b / 16)
               ∧ digit_char (b mod 16) = lower_hex_of (b mod 16)
               ∧ digit_char (b / 16) ∈ js "0123456789abcdef"
               ∧ digit_char (b mod 16) ∈ js "0123456789abcdef"))) in Hb;
    [by apply bool_decide_eq_true in Hb | by vm_compute].
Qed.

Lemma byte_bits b :
  u8 b →
  nibble_bits (digit_char (b / 16)) ++ nibble_bits (digit_char (b mod 16)) = bits_msb 8 b.
Proof.
  intros Hb.
  apply (u8_forallb
           (fun b => bool_decide
              (nibble_bits (digit_char (b / 16)) ++ nibble_bits (digit_char (b mod 16))
               = bits_msb 8 b))) in Hb;
    [by apply bool_decide_eq_true in Hb | by vm_compute].
Qed.

Lemma bufferToHex_lower buf : Forall u8 buf → Forall lower_hex_digit (bufferToHex buf).
Proof.
  induction 1 as [|b buf Hb _ IH]; [by constructor |].
  rewrite bufferToHex_cons by done.
  destruct (digit_char_lower_hex b Hb) as (_ & _ & ? & ?).
  constructor; [done |]. by constructor.
Qed.

Lemma sha256HexFromBytes_unfold msg :
  sha256HexFromBytes msg = bufferToHex (SHA256.digest msg).
Proof. reflexivity. Qed.

Lemma hexToBits_cons c hex : hexToBits (c :: hex) = nibble_bits c ++ hexToBits hex.
Proof. reflexivity. Qed.

Lemma hexToBits_bufferToHex buf :
  Forall u8 buf → hexToBits (bufferToHex buf) = concat (map (bits_msb 8) buf).
Proof.
  induction 1 as [|b buf Hb _ IH]; [done |].
  rewrite bufferToHex_cons, !hexToBits_cons, IH by done.
  change (concat (map (bits_msb 8) (b :: buf)))
    with (bits_msb 8 b ++ concat (map (bits_msb 8) buf)).
  by rewrite <- byte_bits, <- app_assoc.
Qed.

Lemma bits_msb_length w v : length (bits_msb w v) = w.
Proof. unfold bits_msb. by rewrite length_map, length_rev, length_seq. Qed.

Lemma concat_fixed_length {A} (n : nat) (ls : list (list A)) :
  Forall (fun l => length l = n) ls → length (concat ls) = (length ls * n)%nat.
Proof.
  induction 1 as [|l ls Hl _ IH]; [done |]. simpl. rewrite length_app, IH, Hl. lia.
Qed.

Lemma digest_bits_length msg : length (hexToBits (sha256HexFromBytes msg)) = 256%nat.
Proof.
  rewrite sha256HexFromBytes_unfold, hexToBits_bufferToHex by apply digest_u8.
  rewrite (concat_fixed_length 8).
  - by rewrite length_map, digest_length.
  - apply Forall_map, Forall_forall. intros b _. apply bits_msb_length.
Qed.

Lemma hex_value_bound c : 0 <= hex_value c < 16.
Proof.
  unfold hex_value, hex_digit_value.
  repeat case_match; simpl;
    repeat match goal with
           | H : _ && _ = true |- _ => apply andb_prop in H as [? ?]
           end; lia.
Qed.

Lemma substr_pair (hex : jsstring) i c1 c2 :
  hex !! i = Some c1 → hex !! S i = Some c2 → substr hex i 2 = [c1; c2].
Proof.
  intros H1 H2. unfold substr.
  by rewrite (drop_S _ _ _ H1), (drop_S _ _ _ H2).
Qed.

Lemma bufferToHex_pairs buf :
  Forall u8 buf →
  bufferToHex buf = concat (map (fun b => [lower_hex_of (b / 16); lower_hex_of (b mod 16)]) buf).
Proof.
  induction 1 as [|b buf Hb _ IH]; [done |].
  rewrite bufferToHex_cons by done.
  destruct (digit_char_lower_hex b Hb) as (-> & -> & _ & _). simpl. by rewrite IH.
Qed.

(** ** Properties of the hex codecs *)

(** C2. Decoding the hex encoding of a byte sequence gives the sequence
    back: [hexToBuffer (bufferToHex b) = b] for every list [b] of bytes. *)
Theorem hexToBuffer_bufferToHex (b : list Z) :
  Forall u8 b → hexToBuffer (bufferToHex b) = b.
Proof.
  intros Hb. rewrite hexToBuffer_spec, bufferToHex_length by done.
  replace (2 * length b / 2)%nat with (length b)
    by (rewrite Nat.mul_comm, Nat.div_mul; lia).
  apply list_eq. intros k. rewrite list_lookup_fmap.
  destruct (b !! k) as [x|] eqn:Hk.
  - rewrite (lookup_seq_lt _ _ k) by (by eapply lookup_lt_Some). simpl.
    unfold decoded_byte. rewrite (bufferToHex_substr b k x), parseInt16_byte_hex; try done.
    + simpl. f_equal. apply Z.mod_small. by eapply Forall_lookup_1 in Hb.
    + by eapply Forall_lookup_1 in Hb.
  - rewrite lookup_seq_ge; [done |]. by apply lookup_ge_None.
Qed.

Lemma hexToBuffer_bufferToHex_witness :
  Forall u8 [0; 10; 255] ∧ hexToBuffer (bufferToHex [0; 10; 255]) = [0; 10; 255].
Proof.
  assert (H : Forall u8 [0; 10; 255]) by (repeat constructor; unfold u8; lia).
  split; [exact H | exact (hexToBuffer_bufferToHex [0; 10; 255] H)].
Defined.

(** C3, as the specification words it, does not hold: a string of odd
    length and a string with a character that is no hex digit are both
    decoded without any error. *)
Lemma hexToBuffer_accepts_malformed :
  Nat.Odd (length (js "abc")) ∧ hexToBuffer_outcome (js "abc") = Returns [171]
  ∧ ¬ Forall (fun c => is_Some (hex_digit_value c)) (js "zz")
  ∧ hexToBuffer_outcome (js "zz") = Returns [0]
  ∧ ¬ (∀ hex, ¬ valid_hex hex → hexToBuffer_outcome hex = Throws InvalidHexError).
Proof.
  split; [exists 1%nat; reflexivity |]. split; [reflexivity |].
  assert (Hzz : ¬ Forall (fun c => is_Some (hex_digit_value c)) (js "zz")).
  { intros H. apply Forall_inv in H. destruct H as [v Hv]. discriminate Hv. }
  split; [exact Hzz |]. split; [reflexivity |].
  intros H. specialize (H (js "zz")). unfold hexToBuffer_outcome in H.
  assert (Hn : ¬ valid_hex (js "zz")) by (intros [_ Hv]; exact (Hzz Hv)).
  specialize (H Hn). discriminate H.
Qed.

(** C8. The hex encoding of a byte sequence has exactly two characters
    per byte, both among [0123456789abcdef]: the digit of [b / 16], then
    the digit of [b mod 16], with nothing in between.  Its length is twice
    the number of bytes.  The digest text is that encoding of the 32
    digest bytes: 64 such characters, two per byte in the same form. *)
Theorem bufferToHex_two_lower_digits_per_byte (buf msg : list Z) :
  Forall u8 buf →
  length (bufferToHex buf) = (2 * length buf)%nat
  ∧ Forall lower_hex_digit (bufferToHex buf)
  ∧ bufferToHex buf
    = concat (map (fun b => [lower_hex_of (b / 16); lower_hex_of (b mod 16)]) buf)
  ∧ length (sha256HexFromBytes msg) = 64%nat
  ∧ Forall lower_hex_digit (sha256HexFromBytes msg)
  ∧ length (SHA256.digest msg) = 32%nat
  ∧ Forall u8 (SHA256.digest msg)
  ∧ sha256HexFromBytes msg
    = concat (map (fun b => [lower_hex_of (b / 16); lower_hex_of (b mod 16)])
                  (SHA256.digest msg)).
Proof.
  intros Hbuf.
  split; [by apply bufferToHex_length |].
  split; [by apply bufferToHex_lower |].
  split; [by apply bufferToHex_pairs |].
  rewrite sha256HexFromBytes_unfold.
  split; [rewrite bufferToHex_length by apply digest_u8; by rewrite digest_length |].
  split; [apply bufferToHex_lower, digest_u8 |].
  split; [apply digest_length |].
  split; [apply digest_u8 |].
  apply bufferToHex_pairs, digest_u8.
Qed.

Lemma bufferToHex_two_lower_digits_per_byte_witness :
  Forall u8 [0; 10; 255] ∧ bufferToHex [0; 10; 255] = js "000aff"
  ∧ sha256HexFromBytes (js "abc")
    = js "ba7816bf8f01cfea414140de5dae2223b00361a396177a9cb410ff61f20015ad".
Proof.
  assert (H : Forall u8 [0; 10; 255]) by (repeat constructor; unfold u8; lia).
  split; [exact H |].
  destruct (bufferToHex_two_lower_digits_per_byte [0; 10; 255] (js "abc") H)
    as (_ & _ & -> & _ & _ & _ & _ & ->). split; vm_compute; reflexivity.
Defined.

(** C7. On a string of hex digits, [hexToBits] writes for each character
    the four bits of its value, most significant first and zero-padded,
    in the order of the input.  The 64 characters of a digest give 256
    bit characters, byte by byte with the most significant bit first. *)
Theorem hexToBits_four_bits_per_digit (hex : jsstring) (msg : list Z) :
  Forall (fun c => is_Some (hex_digit_value c)) hex →
  hexToBits hex = concat (map (fun c => bits_msb 4 (hex_value c)) hex)
  ∧ length (hexToBits hex) = (4 * length hex)%nat
  ∧ hexToBits (sha256HexFromBytes msg) = concat (map (bits_msb 8) (SHA256.digest msg))
  ∧ length (hexToBits (sha256HexFromBytes msg)) = 256%nat.
Proof.
  intros Hhex.
  assert (Heq : hexToBits hex = concat (map (fun c => bits_msb 4 (hex_value c)) hex)).
  { induction Hhex as [|c hex Hc _ IH]; [done |].
    rewrite hexToBits_cons, IH, nibble_bits_hex by done. reflexivity. }
  split; [exact Heq |]. split.
  - rewrite Heq, (concat_fixed_length 4).
    + rewrite length_map. lia.
    + apply Forall_map, Forall_forall. intros c _. apply bits_msb_length.
  - split; [| apply digest_bits_length].
    rewrite sha256HexFromBytes_unfold. apply hexToBits_bufferToHex, digest_u8.
Qed.

Lemma hexToBits_four_bits_per_digit_witness :
  Forall (fun c => is_Some (hex_digit_value c)) (js "0a5F")
  ∧ hexToBits (js "0a5F") = js "0000101001011111".
Proof.
  assert (H : Forall (fun c => is_Some (hex_digit_value c)) (js "0a5F"))
    by (repeat constructor; eexists; reflexivity).
  split; [exact H |].
  destruct (hexToBits_four_bits_per_digit (js "0a5F") [] H) as (-> & _). reflexivity.
Defined.

(** ** [hamming] counts the differing positions *)

Lemma hamming_loop_spec a b fuel i cnt :
  (length a `min` length b ≤ i + fuel)%nat →
  hamming_loop fuel a b i cnt
  = cnt + Z.of_nat (length (filter (fun j => a !! j ≠ b !! j)
                                    (seq i (length a `min` length b - i)))).
Proof.
  set (n := (length a `min` length b)%nat).
  revert i cnt. induction fuel as [|fuel IH]; intros i cnt Hfuel; cbn [hamming_loop].
  - replace (n - i)%nat with 0%nat by lia. simpl. lia.
  - fold n. destruct (Nat.ltb_spec i n) as [Hlt | Hge].
    + rewrite IH by lia.
      replace (n - i)%nat with (S (n - S i)) by lia. cbn [seq].
      case_bool_decide as Hd.
      * rewrite filter_cons_True by done. simpl length. lia.
      * rewrite filter_cons_False by (intros Hn; by apply Hn). lia.
    + replace (n - i)%nat with 0%nat by lia. simpl. lia.
Qed.

Lemma hamming_differing a b : hamming a b = Z.of_nat (differing_positions a b).
Proof.
  unfold hamming, differing_positions.
  rewrite hamming_loop_spec by lia. by rewrite Nat.sub_0_r.
Qed.

Lemma hamming_bound a b :
  0 <= hamming a b <= Z.of_nat (length a `min` length b).
Proof.
  rewrite hamming_differing. unfold differing_positions.
  pose proof (length_filter (fun j => a !! j ≠ b !! j) (seq 0 (length a `min` length b))) as H.
  rewrite length_seq in H. lia.
Qed.

Lemma run_bits_length input r : r ∈ run input → length (bits r) = 256%nat.
Proof.
  unfold run. intros Hr. apply list_elem_of_In, in_map_iff in Hr as (v & <- & _).
  apply digest_bits_length.
Qed.

Lemma dist_bound results r :
  length (bits r) = 256%nat → 0 <= dist results r <= 256.
Proof.
  intros Hr. unfold dist. destruct (baseBits results) as [|c base]; [lia |].
  pose proof (hamming_bound (c :: base) (bits r)) as H. rewrite Hr in H. lia.
Qed.

Lemma run_bits_all_256 input :
  Forall (fun r => length (bits r) = 256%nat) (run input).
Proof. apply Forall_forall. intros r Hr. by eapply run_bits_length. Qed.

(** C6. [hamming a b] is the number of positions, below the shorter of
    the two lengths, at which [a] and [b] differ.  The bit strings [run]
    produces have 256 characters, so every distance computed for its
    rows is an integer from 0 to 256. *)
Theorem hamming_counts_differing_positions (a b input : jsstring) :
  hamming a b = Z.of_nat (differing_positions a b)
  ∧ Forall (fun r => length (bits r) = 256%nat ∧ 0 <= dist (run input) r <= 256)
           (run input).
Proof.
  split; [apply hamming_differing |].
  apply Forall_forall. intros r Hr.
  pose proof (run_bits_length input r Hr) as Hlen.
  split; [exact Hlen | by apply dist_bound].
Qed.

(** ** The UTF-8 encoder *)

Lemma lor_u8 a b : u8 a → u8 b → u8 (Z.lor a b).
Proof.
  unfold u8. intros Ha Hb. split; [apply Z.lor_nonneg; lia |].
  destruct (decide (Z.lor a b = 0)) as [-> | Hne]; [lia |].
  assert (0 < Z.lor a b) by (pose proof (proj2 (Z.lor_nonneg a b)); lia).
  apply (Z.log2_lt_pow2 _ 8); [done |]. rewrite Z.log2_lor by lia.
  destruct (decide (a = 0)) as [-> | ?]; destruct (decide (b = 0)) as [-> | ?];
    simpl; try lia.
  - apply Z.max_lub_lt; [simpl; lia | apply Z.log2_lt_pow2; lia].
  - apply Z.max_lub_lt; [apply Z.log2_lt_pow2; lia | simpl; lia].
  - apply Z.max_lub_lt; apply Z.log2_lt_pow2; lia.
Qed.

Lemma lxor_u8 a b : u8 a → u8 b → u8 (Z.lxor a b).
Proof.
  unfold u8. intros Ha Hb. split; [apply Z.lxor_nonneg; lia |].
  destruct (decide (Z.lxor a b = 0)) as [-> | Hne]; [lia |].
  assert (0 <= Z.lxor a b) by (apply Z.lxor_nonneg; lia).
  apply (Z.log2_lt_pow2 _ 8); [lia |].
  eapply Z.le_lt_trans; [apply Z.log2_lxor; lia |].
  destruct (decide (a = 0)) as [-> | ?]; destruct (decide (b = 0)) as [-> | ?];
    simpl; try lia.
  - apply Z.max_lub_lt; [simpl; lia | apply Z.log2_lt_pow2; lia].
  - apply Z.max_lub_lt; [apply Z.log2_lt_pow2; lia | simpl; lia].
  - apply Z.max_lub_lt; apply Z.log2_lt_pow2; lia.
Qed.

Lemma continuation_u8 x : u8 (Z.lor 0x80 (Z.land x 0x3F)).
Proof.
  apply lor_u8; [unfold u8; lia |].
  change 0x3F with (Z.ones 6). rewrite Z.land_ones by lia.
  unfold u8. pose proof (Z.mod_pos_bound x (2 ^ 6)). lia.
Qed.

Lemma lead_u8 tag cp n :
  u8 tag → 0 <= n → 0 <= cp < 2 ^ (n + 8) → u8 (Z.lor tag (Z.shiftr cp n)).
Proof.
  intros Ht Hn Hcp. apply lor_u8; [done |].
  rewrite Z.shiftr_div_pow2 by lia. unfold u8. split.
  - apply Z.div_pos; lia.
  - apply Z.div_lt_upper_bound; [lia |].
    rewrite Z.pow_add_r in Hcp by lia. lia.
Qed.

Lemma utf8_code_point_u8 cp : 0 <= cp < 0x110000 → Forall u8 (utf8_code_point cp).
Proof.
  intros Hcp. unfold utf8_code_point.
  repeat case_match;
    repeat match goal with
           | H : (_ <? _) = true |- _ => apply Z.ltb_lt in H
           | H : (_ <? _) = false |- _ => apply Z.ltb_ge in H
           end;
    repeat (apply Forall_cons; split); try apply Forall_nil;
    try apply continuation_u8; try (unfold u8; lia).
  - apply (lead_u8 0xC0 cp 6); [unfold u8| |]; simpl; lia.
  - apply (lead_u8 0xE0 cp 12); [unfold u8| |]; simpl; lia.
  - apply (lead_u8 0xF0 cp 18); [unfold u8| |]; simpl; lia.
Qed.

Lemma utf8_code_point_nonempty cp : utf8_code_point cp ≠ [].
Proof. unfold utf8_code_point. by repeat case_match. Qed.

Lemma surrogate_bounds c :
  (is_high_surrogate c = true → 0xD800 <= c <= 0xDBFF)
  ∧ (is_low_surrogate c = true → 0xDC00 <= c <= 0xDFFF).
Proof.
  unfold is_high_surrogate, is_low_surrogate.
  split; intros [? ?]%andb_prop; lia.
Qed.

Lemma TextEncoder_encode_u8_aux n : ∀ s,
  (length s ≤ n)%nat → wf_jsstring s → Forall u8 (TextEncoder_encode s).
Proof.
  induction n as [|n IH]; intros s Hn Hs.
  - destruct s; [constructor | simpl in Hn; lia].
  - destruct s as [|c rest]; [constructor |].
    apply Forall_cons in Hs as [Hc Hrest]. simpl in Hn. unfold u16 in Hc.
    cbn [TextEncoder_encode].
    destruct (is_high_surrogate c) eqn:Hh.
    + destruct rest as [|d rest']; [by apply utf8_code_point_u8 |].
      destruct (is_low_surrogate d) eqn:Hl.
      * apply Forall_app. split.
        -- apply utf8_code_point_u8.
           apply (proj1 (surrogate_bounds c)) in Hh.
           apply (proj2 (surrogate_bounds d)) in Hl. lia.
        -- apply Forall_cons in Hrest as [_ Hrest']. simpl in Hn.
           apply IH; [lia | done].
      * apply Forall_app. split; [by apply utf8_code_point_u8 |].
        apply IH; [lia | done].
    + destruct (is_low_surrogate c).
      * apply Forall_app. split; [by apply utf8_code_point_u8 |].
        apply IH; [lia | done].
      * apply Forall_app. split; [apply utf8_code_point_u8; lia |].
        apply IH; [lia | done].
Qed.

Lemma TextEncoder_encode_u8 s : wf_jsstring s → Forall u8 (TextEncoder_encode s).
Proof. by apply (TextEncoder_encode_u8_aux (length s)). Qed.

Lemma TextEncoder_encode_nonempty s : s ≠ [] → TextEncoder_encode s ≠ [].
Proof.
  destruct s as [|c rest]; [done |]. intros _ H. cbn [TextEncoder_encode] in H.
  repeat case_match; try apply app_eq_nil in H as [H _];
    by apply utf8_code_point_nonempty in H.
Qed.

Lemma TextEncoder_encode_cons c rest :
  TextEncoder_encode (c :: rest)
  = if is_high_surrogate c then
      match rest with
      | d :: rest' =>
        if is_low_surrogate d then
          utf8_code_point (0x10000 + (c - 0xD800) * 0x400 + (d - 0xDC00))
            ++ TextEncoder_encode rest'
        else utf8_code_point 0xFFFD ++ TextEncoder_encode rest
      | [] => utf8_code_point 0xFFFD
      end
    else if is_low_surrogate c then utf8_code_point 0xFFFD ++ TextEncoder_encode rest
    else utf8_code_point c ++ TextEncoder_encode rest.
Proof. reflexivity. Qed.

Lemma TextEncoder_encode_space_aux n : ∀ s,
  (length s ≤ n)%nat → TextEncoder_encode (s ++ [32]) = TextEncoder_encode s ++ [32].
Proof.
  induction n as [|n IH]; intros s Hn.
  - destruct s; [done | simpl in Hn; lia].
  - destruct s as [|c rest]; [done |]. simpl in Hn.
    change ((c :: rest) ++ [32]) with (c :: (rest ++ [32])).
    rewrite (TextEncoder_encode_cons c rest), (TextEncoder_encode_cons c (rest ++ [32])).
    destruct (is_high_surrogate c).
    + destruct rest as [|d rest']; [done |].
      cbn [app]. simpl in Hn. destruct (is_low_surrogate d).
      * rewrite IH by lia. by rewrite app_assoc.
      * change (d :: (rest' ++ [32])) with ((d :: rest') ++ [32]).
        rewrite IH by (simpl; lia). by rewrite app_assoc.
    + destruct (is_low_surrogate c); rewrite IH by lia; by rewrite app_assoc.
Qed.

Lemma TextEncoder_encode_space s :
  TextEncoder_encode (s ++ js " ") = TextEncoder_encode s ++ [0x20].
Proof. by apply (TextEncoder_encode_space_aux (length s)). Qed.

(** ** Array loads and stores *)



Lemma ToInt32_u8 b : u8 b → ToInt32 (Num b) = b.
Proof. unfold u8, ToInt32. intros Hb. rewrite Z.mod_small; lia. Qed.

Lemma ToUint8_small b : u8 b → ToUint8 (Num b) = b.
Proof. unfold u8. intros Hb. simpl. apply Z.mod_small. lia. Qed.

(** ** The mutation helpers *)

Section helpers.
Variable input : jsstring.
Let enc := TextEncoder_encode input.
Let n := Z.of_nat (length enc).





Lemma mutateCharChange_first : mutateCharChange input 0 (js "Z") = <[0%nat := 0x5A]> enc.
Proof.
  unfold mutateCharChange. fold enc. destruct enc as [|b rest]; [done |].
  change (length (b :: rest) =? 0)%nat with false. cbv iota.
  rewrite Z.add_0_l, Z.rem_same by (simpl; lia). reflexivity.
Qed.

Lemma mutateCharChange_last :
  mutateCharChange input (-1) (js "z") = <[pred (length enc) := 0x7A]> enc.
Proof.
  unfold mutateCharChange. fold enc. destruct enc as [|b rest] eqn:E; [done |].
  change (length (b :: rest) =? 0)%nat with false. cbv iota.
  rewrite Z.rem_small by (simpl length; lia).
  unfold u8_store. destruct (Z.ltb_spec (-1 + Z.of_nat (length (b :: rest))) 0) as [Hlt|_];
    [simpl length in Hlt; lia |].
  replace (Z.to_nat (-1 + Z.of_nat (length (b :: rest)))) with (pred (length (b :: rest)))
    by (simpl length; lia).
  reflexivity.
Qed.

Lemma mutateByteFlip_first bitMask :
  u8 bitMask → Forall u8 enc →
  mutateByteFlip input 0 bitMask = alter (fun b => Z.lxor b bitMask) 0%nat enc.
Proof.
  intros Hm Henc. unfold mutateByteFlip. fold enc.
  destruct enc as [|b rest]; [done |].
  change (length (b :: rest) =? 0)%nat with false. cbv iota.
  rewrite Z.rem_0_l by (simpl; lia).
  apply Forall_cons in Henc as [Hb _].
  change (u8_load (b :: rest) 0) with (Num b).
  unfold u8_store, js_xor. change (0 <? 0) with false. cbv iota.
  rewrite !ToInt32_u8, ToUint8_small by (done || by apply lxor_u8).
  reflexivity.
Qed.
End helpers.

(** ** The helpers over the store *)




(** ** The table cells *)

Example distance_cell_142 : distance_cell 142 = js "142/256 bits changed (55.5%)".
Proof. vm_compute. reflexivity. Qed.

Lemma pct_one_decimal d : 0 <= d <= 256 → pct d = one_decimal_percent d.
Proof.
  intros Hd.
  assert (Hin : d ∈ seqZ 0 257) by (apply elem_of_seqZ; lia).
  assert (Hall : forallb (fun d => bool_decide (pct d = one_decimal_percent d)) (seqZ 0 257)
                 = true) by (by vm_compute).
  rewrite forallb_forall in Hall.
  by eapply bool_decide_eq_true_1, Hall, list_elem_of_In.
Qed.

(** The decimal numerals printed in the cells denote the numbers they
    stand for, with digits only and no superfluous leading zero. *)
Lemma digits_of_decimal d :
  0 <= d <= 256 →
  decimal_value (digits_of 10 d) = d
  ∧ Forall (fun c => 48 <= c <= 57) (digits_of 10 d)
  ∧ (head (digits_of 10 d) = Some 48 → d = 0).
Proof.
  intros Hd.
  assert (Hin : d ∈ seqZ 0 257) by (apply elem_of_seqZ; lia).
  assert (Hall : forallb (fun d => bool_decide
                    (decimal_value (digits_of 10 d) = d
                     ∧ Forall (fun c => 48 <= c <= 57) (digits_of 10 d)
                     ∧ (head (digits_of 10 d) = Some 48 → d = 0)))
                   (seqZ 0 257) = true) by (by vm_compute).
  rewrite forallb_forall in Hall.
  by eapply bool_decide_eq_true_1, Hall, list_elem_of_In.
Qed.

(** The tenths shown are the nearest ones to the exact percentage. *)
Lemma one_decimal_percent_nearest d :
  let n := (1000 * d + 128) / 256 in
  -128 <= 1000 * d - 256 * n < 128.
Proof.
  intros n. subst n.
  pose proof (Z.div_mod (1000 * d + 128) 256 ltac:(lia)).
  pose proof (Z.mod_pos_bound (1000 * d + 128) 256 ltac:(lia)). lia.
Qed.

Lemma render_cons r0 rest :
  bits r0 ≠ [] →
  Forall (fun r => length (bits r) = 256%nat) rest →
  render (r0 :: rest)
  = Row (name r0) (hex r0) (js "-")
    :: map (fun r => Row (name r) (hex r) (distance_cell (hamming (bits r0) (bits r)))) rest.
Proof.
  intros Hbase Hrest. unfold render. rewrite imap_cons. f_equal.
  apply list_eq. intros i. rewrite list_lookup_imap, list_lookup_fmap.
  destruct (rest !! i) as [r|] eqn:Hi; [| done]. simpl. f_equal. f_equal.
  assert (Hr : length (bits r) = 256%nat) by (by eapply Forall_lookup_1 in Hrest).
  pose proof (dist_bound (r0 :: rest) r Hr) as Hd.
  assert (Hdist : dist (r0 :: rest) r = hamming (bits r0) (bits r)).
  { unfold dist, baseBits. by destruct (bits r0). }
  rewrite Hdist in *. unfold distance_cell.
  rewrite pct_one_decimal by done. unfold Number_toString.
  destruct (Z.ltb_spec (hamming (bits r0) (bits r)) 0); [lia | done].
Qed.

(** ** Properties of the avalanche component *)

(** C1, as the specification words it, does not hold: for the empty
    input the variant [append space] is the one byte 0x20, not the empty
    sequence, and its row reports a distance that is not 0. *)
Lemma empty_input_append_space_differs :
  map v_bytes (variants []) ≠ replicate 6 []
  ∧ map (dist (run [])) (tail (run [])) ≠ replicate 5 0.
Proof.
  split; intros H; vm_compute in H; discriminate H.
Qed.

(** C1, amended. For the empty input the original and the four variants
    made by the mutation helpers are the empty byte sequence and their
    rows report distance 0; the variant [append space] is the single byte
    0x20 and its row reports the distance between the digests of the empty
    input and of one space, which is 142. *)
Theorem empty_input_variants :
  map v_bytes (variants []) = [[]; [0x20]; []; []; []; []]
  ∧ map (dist (run [])) (tail (run [])) = [142; 0; 0; 0; 0]
  ∧ map row_cell (render (run []))
    = [js "-"; js "142/256 bits changed (55.5%)"; js "0/256 bits changed (0.0%)";
       js "0/256 bits changed (0.0%)"; js "0/256 bits changed (0.0%)";
       js "0/256 bits changed (0.0%)"].
Proof.
  split; [reflexivity |]. split; vm_compute; reflexivity.
Qed.

(** C5. [run] returns exactly six results, named in this order: original,
    append space, change first char, flip one bit in first byte, flip 0x80
    bit in first byte, change last char.  Their bytes are the UTF-8
    encoding of the input; that encoding followed by one space; byte 0
    replaced by 0x5A, the encoding of ['Z']; byte 0 xor 0x01; byte 0 xor
    0x80; the last byte replaced by 0x7A, the encoding of ['z'].  (An
    empty encoding has no byte 0 and no last byte, and stays empty.)  Each
    result carries the digest of its bytes in hex and in bits. *)
Theorem run_six_results_in_order (input : jsstring) :
  wf_jsstring input →
  let enc := TextEncoder_encode input in
  map name (run input)
  = [js "original"; js "append space"; js "change first char";
     js "flip one bit in first byte"; js "flip 0x80 bit in first byte";
     js "change last char"]
  ∧ map bytes (run input)
    = [enc; enc ++ [0x20]; <[0%nat := 0x5A]> enc;
       alter (fun b => Z.lxor b 0x01) 0%nat enc;
       alter (fun b => Z.lxor b 0x80) 0%nat enc;
       <[pred (length enc) := 0x7A]> enc]
  ∧ TextEncoder_encode (js "Z") = [0x5A] ∧ TextEncoder_encode (js "z") = [0x7A]
  ∧ Forall (fun r => hex r = sha256HexFromBytes (bytes r) ∧ bits r = hexToBits (hex r))
           (run input).
Proof.
  intros Hwf enc. pose proof (TextEncoder_encode_u8 input Hwf) as Henc.
  split; [reflexivity |]. split.
  - unfold run, variants. cbn [map v_bytes bytes].
    rewrite TextEncoder_encode_space, mutateCharChange_first, mutateCharChange_last.
    rewrite !mutateByteFlip_first by (done || unfold u8; lia). reflexivity.
  - split; [reflexivity |]. split; [reflexivity |].
    unfold run. apply Forall_map, Forall_forall. intros v _. by split.
Qed.

Lemma run_six_results_in_order_witness :
  wf_jsstring (js "abc")
  ∧ map bytes (run (js "abc"))
    = [[97; 98; 99]; [97; 98; 99; 32]; [90; 98; 99]; [96; 98; 99]; [225; 98; 99];
       [97; 98; 122]].
Proof.
  assert (H : wf_jsstring (js "abc")) by (repeat constructor; unfold u16; lia).
  split; [exact H |].
  destruct (run_six_results_in_order (js "abc") H) as (_ & -> & _). reflexivity.
Defined.

(** C9. In the table rendered from the results of [run], the first row,
    the original, shows ["-"] in the comparison column: no distance, and
    not the text of a distance of zero.  Every other row shows its
    distance [d] to the original's bits and [d / 256 * 100] with one
    fraction digit, as [d/256 bits changed (p%)]. *)
Theorem render_original_row_has_no_distance (input : jsstring) :
  ∃ r0 rest,
    run input = r0 :: rest
    ∧ render (run input)
      = Row (name r0) (hex r0) (js "-")
        :: map (fun r => Row (name r) (hex r) (distance_cell (hamming (bits r0) (bits r))))
               rest
    ∧ js "-" ≠ distance_cell 0
    ∧ distance_cell 0 = js "0/256 bits changed (0.0%)".
Proof.
  pose proof (run_bits_all_256 input) as Hall.
  destruct (run input) as [|r0 rest] eqn:Hrun; [discriminate Hrun |].
  exists r0, rest. split; [done |].
  apply Forall_cons in Hall as [H0 Hrest].
  split; [| split; [discriminate | reflexivity]].
  apply render_cons; [| done].
  intros Hnil. rewrite Hnil in H0. discriminate H0.
Qed.



(** ** More about [hamming] *)

Lemma count_diff_nil_r a : count_diff a [] = 0.
Proof. by destruct a. Qed.

Lemma count_diff_cons x y a b :
  count_diff (x :: a) (y :: b) = (if bool_decide (x = y) then 0 else 1) + count_diff a b.
Proof. reflexivity. Qed.

Lemma hamming_loop_count_diff a b fuel i cnt :
  (length a `min` length b ≤ i + fuel)%nat →
  hamming_loop fuel a b i cnt = cnt + count_diff (drop i a) (drop i b).
Proof.
  assert (Hdone : ∀ i, (length a `min` length b ≤ i)%nat →
                       count_diff (drop i a) (drop i b) = 0).
  { intros j Hj. destruct (decide (length a ≤ j)%nat).
    - by rewrite (drop_ge a) by done.
    - rewrite (drop_ge b) by lia. apply count_diff_nil_r. }
  revert i cnt. induction fuel as [|fuel IH]; intros i cnt Hfuel; cbn [hamming_loop].
  - rewrite Hdone by lia. lia.
  - destruct (Nat.ltb_spec i (length a `min` length b)) as [Hlt | Hge].
    + rewrite IH by lia.
      destruct (lookup_lt_is_Some_2 a i ltac:(lia)) as [x Hx].
      destruct (lookup_lt_is_Some_2 b i ltac:(lia)) as [y Hy].
      rewrite (drop_S a x i Hx), (drop_S b y i Hy), count_diff_cons.
      destruct (decide (x = y)) as [-> | Hne].
      * rewrite (bool_decide_eq_false_2 (a !! i ≠ b !! i))
          by (rewrite Hx, Hy; naive_solver).
        rewrite bool_decide_eq_true_2 by done. lia.
      * rewrite (bool_decide_eq_true_2 (a !! i ≠ b !! i))
          by (rewrite Hx, Hy; naive_solver).
        rewrite bool_decide_eq_false_2 by done. lia.
    + rewrite Hdone by lia. lia.
Qed.

Lemma hamming_count_diff a b : hamming a b = count_diff a b.
Proof. unfold hamming. rewrite hamming_loop_count_diff by lia. by rewrite !drop_0. Qed.

Lemma count_diff_bound a b : 0 <= count_diff a b <= Z.of_nat (length a `min` length b).
Proof.
  revert b. induction a as [|x a IH]; intros [|y b]; simpl; try lia.
  specialize (IH b). case_bool_decide; lia.
Qed.

Lemma count_diff_sym a b : count_diff a b = count_diff b a.
Proof.
  revert b. induction a as [|x a IH]; intros [|y b]; simpl; try done.
  rewrite IH. repeat case_bool_decide; try lia; congruence.
Qed.

Lemma count_diff_app a1 a2 b1 b2 :
  length a1 = length b1 →
  count_diff (a1 ++ a2) (b1 ++ b2) = count_diff a1 b1 + count_diff a2 b2.
Proof.
  revert b1. induction a1 as [|x a1 IH]; intros [|y b1] Hlen; simpl in *; try done.
  rewrite IH by lia. lia.
Qed.

Lemma count_diff_take a b :
  count_diff a b
  = count_diff (take (length a `min` length b) a) (take (length a `min` length b) b).
Proof.
  revert b. induction a as [|x a IH]; intros [|y b]; simpl; try done.
  by rewrite <- IH.
Qed.

Lemma count_diff_zero a b :
  count_diff a b = 0 ↔ take (length a `min` length b) a = take (length a `min` length b) b.
Proof.
  revert b. induction a as [|x a IH]; intros [|y b]; simpl; try done.
  pose proof (count_diff_bound a b). specialize (IH b).
  case_bool_decide as Hxy.
  - subst y. split.
    + intros H0. f_equal. apply IH. lia.
    + intros [= Ht]. apply IH in Ht. lia.
  - split; [lia |]. intros [= ? _]. done.
Qed.

Lemma count_diff_triangle a b c :
  length a = length b → length b = length c →
  count_diff a c <= count_diff a b + count_diff b c.
Proof.
  revert b c. induction a as [|x a IH]; intros [|y b] [|z c] Hab Hbc; simpl in *; try lia.
  specialize (IH b c ltac:(lia) ltac:(lia)).
  repeat case_bool_decide; try lia; congruence.
Qed.

(** X1. [hamming] does not depend on the order of its arguments. *)
Theorem hamming_symmetric (a b : jsstring) : hamming a b = hamming b a.
Proof. rewrite !hamming_count_diff. apply count_diff_sym. Qed.

(** X2. The count never exceeds the shorter length, and only the first
    [min (length a) (length b)] characters of each string matter. *)
Theorem hamming_ignores_the_longer_tail (a b : jsstring) :
  0 <= hamming a b <= Z.of_nat (length a `min` length b)
  ∧ hamming a b
    = hamming (take (length a `min` length b) a) (take (length a `min` length b) b).
Proof.
  rewrite !hamming_count_diff. split; [apply count_diff_bound | apply count_diff_take].
Qed.

(** X3. The count is zero exactly when the two strings agree on the length of
    the shorter one; in particular a string is at distance 0 from itself
    and from each of its extensions. *)
Theorem hamming_zero_iff_common_prefix (a b : jsstring) :
  hamming a b = 0
  ↔ take (length a `min` length b) a = take (length a `min` length b) b.
Proof. rewrite hamming_count_diff. apply count_diff_zero. Qed.

Lemma hamming_zero_iff_common_prefix_witness :
  hamming (js "0110") (js "011011") = 0.
Proof. apply (hamming_zero_iff_common_prefix (js "0110") (js "011011")). reflexivity. Defined.

(** X4. On strings of one length, [hamming] satisfies the triangle inequality. *)
Theorem hamming_triangle (a b c : jsstring) :
  length a = length b → length b = length c →
  hamming a c <= hamming a b + hamming b c.
Proof. rewrite !hamming_count_diff. apply count_diff_triangle. Qed.

Lemma hamming_triangle_witness :
  hamming (js "0011") (js "1111") <= hamming (js "0011") (js "0111") + hamming (js "0111") (js "1111").
Proof.
  apply (hamming_triangle (js "0011") (js "0111") (js "1111")); reflexivity.
Defined.

(** ** The table counts differing digest bits *)

Lemma bit_char_inj b1 b2 : bit_char b1 = bit_char b2 ↔ b1 = b2.
Proof. by destruct b1, b2. Qed.

Lemma count_diff_bits (l : list nat) x y :
  count_diff (map (fun j => bit_char (Z.testbit x (Z.of_nat j))) l)
             (map (fun j => bit_char (Z.testbit y (Z.of_nat j))) l)
  = Z.of_nat (length (filter (fun j => Z.testbit (Z.lxor x y) (Z.of_nat j) = true) l)).
Proof.
  induction l as [|j l IH]; [done |].
  cbn [map]. rewrite count_diff_cons, IH, filter_cons, Z.lxor_spec.
  destruct (Z.testbit x (Z.of_nat j)), (Z.testbit y (Z.of_nat j)); simpl;
    repeat case_decide; try done; simpl; lia.
Qed.

Lemma length_filter_rev {A} (P : A → Prop) `{∀ x, Decision (P x)} (l : list A) :
  length (filter P (rev l)) = length (filter P l).
Proof.
  induction l as [|x l IH]; [done |].
  simpl rev. rewrite filter_app, length_app, IH, (filter_cons P x l).
  change (filter P [x]) with (if decide (P x) then [x] else []).
  case_decide; simpl; lia.
Qed.

Lemma count_diff_bits_msb w x y :
  count_diff (bits_msb w x) (bits_msb w y) = popcount w (Z.lxor x y).
Proof.
  unfold bits_msb, popcount. by rewrite count_diff_bits, length_filter_rev.
Qed.

Lemma count_diff_bytes xs ys :
  count_diff (concat (map (bits_msb 8) xs)) (concat (map (bits_msb 8) ys))
  = bit_distance xs ys.
Proof.
  revert ys. induction xs as [|x xs IH]; intros ys; [done |].
  destruct ys as [|y ys]; [apply count_diff_nil_r |].
  cbn [map concat]. rewrite count_diff_app by (by rewrite !bits_msb_length).
  rewrite IH, count_diff_bits_msb. reflexivity.
Qed.

(** X5. The distance between the bit strings of two byte sequences is the
    number of bits in which the sequences differ: the sum, over the byte
    positions both have, of the number of bits set in the xor of the two
    bytes. *)
Theorem hamming_of_bits_is_bit_distance (xs ys : list Z) :
  Forall u8 xs → Forall u8 ys →
  hamming (hexToBits (bufferToHex xs)) (hexToBits (bufferToHex ys)) = bit_distance xs ys.
Proof.
  intros Hxs Hys. rewrite hamming_count_diff, !hexToBits_bufferToHex by done.
  apply count_diff_bytes.
Qed.

Lemma hamming_of_bits_is_bit_distance_witness :
  hamming (hexToBits (bufferToHex [0x0F; 0x80])) (hexToBits (bufferToHex [0xF0; 0x81])) = 9.
Proof.
  apply (hamming_of_bits_is_bit_distance [0x0F; 0x80] [0xF0; 0x81]);
    repeat constructor; unfold u8; lia.
Defined.

(** X6. Every distance in the table of [run] is the number of bits in which
    the SHA-256 digest of the row's bytes differs from the digest of the
    original's bytes. *)
Theorem run_distance_is_digest_bit_distance (input : jsstring) :
  ∃ r0 rest,
    run input = r0 :: rest
    ∧ Forall (fun r => dist (run input) r
                       = bit_distance (SHA256.digest (bytes r0)) (SHA256.digest (bytes r)))
             (run input).
Proof.
  pose proof (run_bits_all_256 input) as Hbits.
  assert (Hform : Forall (fun r => bits r = hexToBits (bufferToHex (SHA256.digest (bytes r))))
                         (run input)).
  { unfold run. apply Forall_map, Forall_forall. intros v _. reflexivity. }
  destruct (run input) as [|r0 rest] eqn:Hrun; [discriminate Hrun |].
  exists r0, rest. split; [done |].
  apply Forall_forall. intros r Hr.
  pose proof (proj1 (Forall_forall _ _) Hform r Hr) as Er.
  pose proof (Forall_inv Hform) as E0. pose proof (Forall_inv Hbits) as L0.
  cbv beta in Er, E0, L0.
  unfold dist, baseBits. destruct (bits r0) as [|c base] eqn:Eb;
    [simpl in L0; discriminate L0 |].
  rewrite E0, Er, hamming_count_diff, !hexToBits_bufferToHex by apply digest_u8.
  apply count_diff_bytes.
Qed.

(** ** More about [hexToBuffer] *)

Lemma substr_app_l (a b : jsstring) i n :
  (i + n ≤ length a)%nat → substr (a ++ b) i n = substr a i n.
Proof.
  intros H. unfold substr. rewrite drop_app_le by lia.
  apply take_app_le. rewrite length_drop. lia.
Qed.

Lemma substr_app_r (a b : jsstring) i n :
  substr (a ++ b) (length a + i) n = substr b i n.
Proof.
  unfold substr. rewrite drop_app_ge by lia. do 2 f_equal. lia.
Qed.

Lemma hexToBuffer_app a b :
  Nat.Even (length a) → hexToBuffer (a ++ b) = hexToBuffer a ++ hexToBuffer b.
Proof.
  intros [m Hm]. rewrite !hexToBuffer_spec, length_app, Hm.
  replace ((2 * m + length b) / 2)%nat with (m + length b / 2)%nat
    by (rewrite Nat.mul_comm, Nat.div_add_l; lia).
  replace (2 * m / 2)%nat with m by (rewrite Nat.mul_comm, Nat.div_mul; lia).
  rewrite seq_app, map_app. f_equal.
  - apply map_ext_in. intros k Hk%in_seq. unfold decoded_byte.
    by rewrite substr_app_l by lia.
  - replace (0 + m)%nat with (m + 0)%nat by lia.
    rewrite <- (fmap_add_seq m 0), <- list_fmap_compose.
    apply map_ext. intros k. unfold compose, decoded_byte.
    replace (2 * (m + k))%nat with (length a + 2 * k)%nat by lia.
    by rewrite substr_app_r.
Qed.

Lemma hexToBuffer_pair_cons c1 c2 rest :
  hexToBuffer (c1 :: c2 :: rest) = ToUint8 (parseInt16 [c1; c2]) :: hexToBuffer rest.
Proof.
  change (c1 :: c2 :: rest) with ([c1; c2] ++ rest).
  rewrite hexToBuffer_app by (by exists 1%nat). reflexivity.
Qed.

Lemma even_list_ind {A} (P : list A → Prop) :
  P [] → (∀ x y l, P l → P (x :: y :: l)) → ∀ l, Nat.Even (length l) → P l.
Proof.
  intros Hnil Hstep l [m Hm]. revert l Hm.
  induction m as [|m IH]; intros l Hm.
  - destruct l; [done | simpl in Hm; lia].
  - destruct l as [|x [|y l]]; simpl in Hm; try lia.
    apply Hstep, IH. lia.
Qed.

Lemma hex_case_facts c :
  is_Some (hex_digit_value c) →
  digit_char (hex_value c) = to_lower_hex c
  ∧ is_Some (hex_digit_value (to_upper_hex c)) ∧ hex_value (to_upper_hex c) = hex_value c
  ∧ is_Some (hex_digit_value (to_lower_hex c)) ∧ hex_value (to_lower_hex c) = hex_value c.
Proof.
  intros Hc.
  apply (hex_codes_forallb
           (fun c => bool_decide
              (digit_char (hex_value c) = to_lower_hex c
               ∧ is_Some (hex_digit_value (to_upper_hex c))
               ∧ hex_value (to_upper_hex c) = hex_value c
               ∧ is_Some (hex_digit_value (to_lower_hex c))
               ∧ hex_value (to_lower_hex c) = hex_value c))) in Hc;
    [by apply bool_decide_eq_true in Hc | by vm_compute].
Qed.

Lemma pair_byte c1 c2 :
  is_Some (hex_digit_value c1) → is_Some (hex_digit_value c2) →
  ToUint8 (parseInt16 [c1; c2]) = 16 * hex_value c1 + hex_value c2.
Proof.
  intros H1 H2. rewrite parseInt16_pair by done.
  pose proof (hex_value_bound c1). pose proof (hex_value_bound c2).
  simpl. apply Z.mod_small. lia.
Qed.

Lemma lower_hex_is_hex c : lower_hex_digit c → is_Some (hex_digit_value c).
Proof.
  unfold lower_hex_digit. intros H.
  repeat (apply elem_of_cons in H as [-> | H]; [by eexists |]).
  by apply elem_of_nil in H.
Qed.

Lemma bufferToHex_valid sig : Forall u8 sig → valid_hex (bufferToHex sig).
Proof.
  intros Hsig. split.
  - exists (length sig). by apply bufferToHex_length.
  - eapply Forall_impl; [by apply bufferToHex_lower |]. apply lower_hex_is_hex.
Qed.

Lemma hexToBuffer_case hex :
  valid_hex hex →
  hexToBuffer (map to_upper_hex hex) = hexToBuffer hex
  ∧ hexToBuffer (map to_lower_hex hex) = hexToBuffer hex.
Proof.
  intros [Heven Hdigits]. revert Hdigits. pattern hex.
  apply even_list_ind; [done | | done].
  intros c1 c2 l IH Hd.
  apply Forall_cons in Hd as [H1 Hd]. apply Forall_cons in Hd as [H2 Hd].
  destruct (IH Hd) as [IHu IHl].
  destruct (hex_case_facts c1 H1) as (_ & U1 & V1 & L1 & W1).
  destruct (hex_case_facts c2 H2) as (_ & U2 & V2 & L2 & W2).
  cbn [map]. rewrite !hexToBuffer_pair_cons, !pair_byte by done.
  by rewrite IHu, IHl, V1, V2, W1, W2.
Qed.

Lemma hexToBuffer_of_bufferToHex sig : Forall u8 sig → hexToBuffer (bufferToHex sig) = sig.
Proof.
  induction 1 as [|b sig Hb _ IH]; [done |].
  rewrite bufferToHex_cons, hexToBuffer_pair_cons, IH by done.
  rewrite <- byte_hex_digits, parseInt16_byte_hex, ToUint8_small by done. reflexivity.
Qed.

Lemma hexToBuffer_lookup_pair hex k c1 c2 :
  hex !! (2 * k)%nat = Some c1 → hex !! S (2 * k) = Some c2 →
  hexToBuffer hex !! k = Some (ToUint8 (parseInt16 [c1; c2])).
Proof.
  intros H1 H2.
  assert (Hk : (k < length hex / 2)%nat).
  { apply lookup_lt_Some in H2. pose proof (Nat.div_mod_eq (length hex) 2).
    pose proof (Nat.mod_upper_bound (length hex) 2). lia. }
  rewrite hexToBuffer_spec, list_lookup_fmap, lookup_seq_lt by done.
  simpl. f_equal. unfold decoded_byte. by rewrite (substr_pair hex (2 * k) c1 c2 H1 H2).
Qed.

Lemma hexToBuffer_short tail : (length tail ≤ 1)%nat → hexToBuffer tail = [].
Proof.
  intros Hl. rewrite hexToBuffer_spec.
  replace (length tail / 2)%nat with 0%nat; [done |].
  destruct tail as [|c [|d tail]]; simpl in *; try done. lia.
Qed.

Lemma hexToBuffer_even_prefix hex :
  hexToBuffer (take (2 * (length hex / 2)) hex) = hexToBuffer hex.
Proof.
  pose proof (Nat.div_mod_eq (length hex) 2) as Hdm.
  pose proof (Nat.mod_upper_bound (length hex) 2 ltac:(lia)) as Hm.
  rewrite <- (take_drop (2 * (length hex / 2)) hex) at 3.
  rewrite hexToBuffer_app.
  - rewrite (hexToBuffer_short (drop _ hex)) by (rewrite length_drop; lia).
    by rewrite app_nil_r.
  - exists (length hex / 2)%nat. rewrite length_take. lia.
Qed.

(** C3, amended. [hexToBuffer] raises no error on any string: it always
    returns [length hex / 2] bytes (rounded down), and byte [k] is what
    [parseInt] reads in the two code units at [2k], taken modulo 256, and
    0 when [parseInt] finds no digit there.  The last character of a
    string of odd length is ignored: the string without it decodes to the
    same bytes.  On a valid hex string the call succeeds and byte [k] is
    the value of the two digits at [2k] and [2k + 1]. *)
Theorem hexToBuffer_never_fails (hex : jsstring) :
  ∃ bs, hexToBuffer_outcome hex = Returns bs
        ∧ length bs = (length hex / 2)%nat
        ∧ Forall u8 bs
        ∧ bs = map (fun k => ToUint8 (parseInt16 (substr hex (2 * k) 2)))
                   (seq 0 (length hex / 2))
        ∧ (∀ k, (k < length hex / 2)%nat → parseInt16 (substr hex (2 * k) 2) = NaN →
                bs !! k = Some 0)
        ∧ hexToBuffer_outcome (take (2 * (length hex / 2)) hex) = Returns bs
        ∧ (valid_hex hex →
           ∀ k c1 c2, hex !! (2 * k)%nat = Some c1 → hex !! S (2 * k) = Some c2 →
                      bs !! k = Some (16 * hex_value c1 + hex_value c2)).
Proof.
  exists (hexToBuffer hex). split; [reflexivity |].
  split; [apply hexToBuffer_length |]. split; [apply hexToBuffer_u8 |].
  split; [apply hexToBuffer_spec |]. split.
  { intros k Hk Hnan. rewrite hexToBuffer_spec, list_lookup_fmap, lookup_seq_lt by done.
    simpl. unfold decoded_byte. by rewrite Hnan. }
  split; [unfold hexToBuffer_outcome; by rewrite hexToBuffer_even_prefix |].
  intros [_ Hv] k c1 c2 H1 H2.
  rewrite (hexToBuffer_lookup_pair hex k c1 c2 H1 H2). f_equal.
  apply pair_byte; [exact (Forall_lookup_1 _ _ _ _ Hv H1) | exact (Forall_lookup_1 _ _ _ _ Hv H2)].
Qed.

Lemma hexToBuffer_never_fails_witness :
  ∃ bs, hexToBuffer_outcome (js "0aFf") = Returns bs ∧ bs !! 1%nat = Some 255.
Proof.
  destruct (hexToBuffer_never_fails (js "0aFf")) as (bs & Hr & _ & _ & _ & _ & _ & Hv).
  exists bs. split; [exact Hr |].
  assert (Hvalid : valid_hex (js "0aFf")).
  { split; [exists 2%nat; reflexivity | repeat constructor; eexists; reflexivity]. }
  apply (Hv Hvalid 1%nat 70 102); reflexivity.
Defined.

(** X7. Decoding works pair by pair: after an even number of characters the
    rest of the string is decoded on its own. *)
Theorem hexToBuffer_concatenation (a b : jsstring) :
  Nat.Even (length a) → hexToBuffer (a ++ b) = hexToBuffer a ++ hexToBuffer b.
Proof. apply hexToBuffer_app. Qed.

Lemma hexToBuffer_concatenation_witness :
  hexToBuffer (js "0aff" ++ js "1") = hexToBuffer (js "0aff") ++ hexToBuffer (js "1").
Proof. apply (hexToBuffer_concatenation (js "0aff") (js "1")). by exists 2%nat. Defined.

(** X8. On a valid hex string, encoding the decoded bytes gives the string
    back with the letters [A]..[F] in lower case. *)
Theorem bufferToHex_hexToBuffer_lowercases (hex : jsstring) :
  valid_hex hex → bufferToHex (hexToBuffer hex) = map to_lower_hex hex.
Proof.
  intros [Heven Hdigits]. revert Hdigits. pattern hex.
  apply even_list_ind; [done | | done].
  intros c1 c2 l IH Hd.
  apply Forall_cons in Hd as [H1 Hd]. apply Forall_cons in Hd as [H2 Hd].
  rewrite hexToBuffer_pair_cons, pair_byte by done.
  pose proof (hex_value_bound c1). pose proof (hex_value_bound c2).
  rewrite bufferToHex_cons by (unfold u8; lia). rewrite IH by done.
  replace ((16 * hex_value c1 + hex_value c2) / 16) with (hex_value c1)
    by (apply Z.div_unique with (hex_value c2); lia).
  replace ((16 * hex_value c1 + hex_value c2) mod 16) with (hex_value c2)
    by (apply Z.mod_unique with (hex_value c1); lia).
  destruct (hex_case_facts c1 H1) as (-> & _). destruct (hex_case_facts c2 H2) as (-> & _).
  reflexivity.
Qed.

Lemma bufferToHex_hexToBuffer_lowercases_witness :
  bufferToHex (hexToBuffer (js "0AfF")) = js "0aff".
Proof.
  apply (bufferToHex_hexToBuffer_lowercases (js "0AfF")).
  split; [by exists 2%nat | repeat constructor; by eexists].
Defined.

(** X9. On a valid hex string the letter case does not matter: the string in
    upper case and the string in lower case decode to the same bytes. *)
Theorem hexToBuffer_ignores_letter_case (hex : jsstring) :
  valid_hex hex →
  hexToBuffer (map to_upper_hex hex) = hexToBuffer hex
  ∧ hexToBuffer (map to_lower_hex hex) = hexToBuffer hex.
Proof. apply hexToBuffer_case. Qed.

Lemma hexToBuffer_ignores_letter_case_witness :
  hexToBuffer (js "0AFF") = hexToBuffer (js "0aff").
Proof.
  apply (hexToBuffer_ignores_letter_case (js "0aff")).
  split; [by exists 2%nat | repeat constructor; by eexists].
Defined.

Lemma hexToBuffer_altered sig c :
  Forall u8 sig →
  hexToBuffer (map to_upper_hex (bufferToHex sig)) = sig
  ∧ hexToBuffer (bufferToHex sig ++ [c]) = sig.
Proof.
  intros Hsig. pose proof (bufferToHex_valid sig Hsig) as Hvalid. split.
  - rewrite (proj1 (hexToBuffer_case _ Hvalid)). by apply hexToBuffer_of_bufferToHex.
  - rewrite hexToBuffer_app by apply Hvalid.
    rewrite hexToBuffer_of_bufferToHex by done. apply app_nil_r.
Qed.

(** X10. A signature text that was altered only in letter case, or by one
    extra character at its end, still decodes to the signature bytes. *)
Theorem hexToBuffer_accepts_altered_text (sig : list Z) (c : Z) :
  Forall u8 sig →
  hexToBuffer (map to_upper_hex (bufferToHex sig)) = sig
  ∧ hexToBuffer (bufferToHex sig ++ [c]) = sig.
Proof. apply hexToBuffer_altered. Qed.

Lemma hexToBuffer_accepts_altered_text_witness :
  hexToBuffer (js "0AFF") = [10; 255] ∧ hexToBuffer (js "0aff" ++ [122]) = [10; 255].
Proof.
  apply (hexToBuffer_accepts_altered_text [10; 255] 122).
  repeat constructor; unfold u8; lia.
Defined.

(** ** Pairs that are not two hex digits, and [hexToBits] on any string *)

Ltac destruct_code c :=
  destruct c as [|c|c]; try reflexivity;
  repeat (destruct c as [c|c|]; try reflexivity).

Lemma strip_hex_prefix_other c s :
  c ≠ 48 → strip_hex_prefix (c :: s) = c :: s.
Proof. intros Hc. unfold strip_hex_prefix. destruct_code c. by destruct Hc. Qed.

Lemma strip_hex_prefix_single c : strip_hex_prefix [c] = [c].
Proof. unfold strip_hex_prefix. destruct_code c. Qed.

Lemma hex_digit_not_space c : is_Some (hex_digit_value c) → is_white_space c = false.
Proof.
  intros Hc.
  apply (hex_codes_forallb (fun c => negb (is_white_space c))) in Hc; [| by vm_compute].
  by apply negb_true_iff in Hc.
Qed.

Lemma parseInt16_not_digit_first c s :
  hex_digit_value c = None → is_white_space c = false → c ≠ 43 → c ≠ 45 →
  parseInt16 (c :: s) = NaN.
Proof.
  intros Hd Hw Hp Hm. unfold parseInt16. cbn [trim_start]. rewrite Hw.
  destruct (Z.eqb_spec c 43) as [|_]; [done |].
  destruct (Z.eqb_spec c 45) as [|_]; [done |]. cbn [orb].
  rewrite strip_hex_prefix_other by (intros ->; discriminate Hd).
  cbn [hex_run]. by rewrite Hd.
Qed.

Lemma parseInt16_digit_then_other c1 c2 :
  is_Some (hex_digit_value c1) → hex_digit_value c2 = None →
  ToUint8 (parseInt16 [c1; c2]) = hex_value c1.
Proof.
  intros H1 H2. unfold parseInt16. cbn [trim_start].
  rewrite (hex_digit_not_space c1 H1).
  apply hex_digit_value_codes in H1.
  assert (Hl : hex_digit_codes
               = [48; 49; 50; 51; 52; 53; 54; 55; 56; 57; 65; 66; 67; 68; 69; 70;
                  97; 98; 99; 100; 101; 102]) by reflexivity.
  rewrite Hl in H1. clear Hl.
  repeat (apply elem_of_cons in H1 as [-> | H1];
          [unfold hex_value; cbn;
           first [ rewrite H2; reflexivity
                 | destruct (c2 =? 120), (c2 =? 88); cbn; rewrite ?H2; reflexivity ] |]).
  by apply elem_of_nil in H1.
Qed.

Lemma parseInt16_single_not_digit c : hex_digit_value c = None → parseInt16 [c] = NaN.
Proof.
  intros Hd. unfold parseInt16. cbn [trim_start].
  destruct (is_white_space c); [reflexivity |].
  destruct ((c =? 43) || (c =? 45)); [reflexivity |].
  rewrite strip_hex_prefix_single. cbn [hex_run]. by rewrite Hd.
Qed.

Lemma nibble_bits_any c : nibble_bits c = bits_or_NaN c.
Proof.
  unfold bits_or_NaN. destruct (hex_digit_value c) as [v|] eqn:Hc.
  - rewrite nibble_bits_hex by (by eexists). unfold hex_value. by rewrite Hc.
  - unfold nibble_bits. by rewrite parseInt16_single_not_digit.
Qed.

Lemma bits_or_NaN_length c : length (bits_or_NaN c) = 4%nat.
Proof. unfold bits_or_NaN. destruct (hex_digit_value c); [apply bits_msb_length | done]. Qed.

(** X11. In a pair that is not two hex digits nothing is rejected.  A hex
    digit followed by any other character decodes to the value of the
    digit alone; a pair that starts with a character that is no hex digit,
    no white space and no sign decodes to 0. *)
Theorem hexToBuffer_reads_malformed_pairs (hex : jsstring) (k : nat) (c1 c2 : Z) :
  hex !! (2 * k)%nat = Some c1 → hex !! S (2 * k) = Some c2 →
  (is_Some (hex_digit_value c1) → hex_digit_value c2 = None →
   hexToBuffer hex !! k = Some (hex_value c1))
  ∧ (hex_digit_value c1 = None → is_white_space c1 = false → c1 ≠ 43 → c1 ≠ 45 →
     hexToBuffer hex !! k = Some 0).
Proof.
  intros H1 H2. rewrite (hexToBuffer_lookup_pair hex k c1 c2 H1 H2). split.
  - intros Hd1 Hd2. f_equal. by apply parseInt16_digit_then_other.
  - intros Hd Hw Hp Hm. by rewrite parseInt16_not_digit_first.
Qed.

Lemma hexToBuffer_reads_malformed_pairs_witness :
  hexToBuffer (js "ff7zq1") !! 1%nat = Some 7 ∧ hexToBuffer (js "ff7zq1") !! 2%nat = Some 0.
Proof.
  split.
  - apply (hexToBuffer_reads_malformed_pairs (js "ff7zq1") 1 55 122); try reflexivity.
    by eexists.
  - apply (hexToBuffer_reads_malformed_pairs (js "ff7zq1") 2 113 49); try reflexivity;
      discriminate.
Defined.

(** X12. [hexToBits] writes four characters for every input character, hex
    digit or not: the four bits of a hex digit, and the text [0NaN] for
    any other character. *)
Theorem hexToBits_four_characters_each (hex : jsstring) :
  hexToBits hex = concat (map bits_or_NaN hex)
  ∧ length (hexToBits hex) = (4 * length hex)%nat.
Proof.
  assert (Heq : hexToBits hex = concat (map bits_or_NaN hex)).
  { induction hex as [|c hex IH]; [done |].
    rewrite hexToBits_cons, IH, nibble_bits_any. reflexivity. }
  split; [exact Heq |].
  rewrite Heq, (concat_fixed_length 4).
  - rewrite length_map. lia.
  - apply Forall_map, Forall_forall. intros c _. apply bits_or_NaN_length.
Qed.

(** ** More about the mutation helpers *)

Lemma insert_as_alter {A} (f : A → A) (l : list A) k b :
  l !! k = Some b → <[k := f b]> l = alter f k l.
Proof.
  revert k. induction l as [|x l IH]; intros [|k] Hk; simpl in *; try done.
  - by injection Hk as ->.
  - f_equal. by apply IH.
Qed.

Lemma u8_load_in arr i b :
  0 <= i → arr !! Z.to_nat i = Some b → u8_load arr i = Num b.
Proof.
  intros Hi Hb. unfold u8_load. destruct (Z.ltb_spec i 0); [lia |]. by rewrite Hb.
Qed.

Lemma u8_store_negative arr i v : i < 0 → u8_store arr i v = arr.
Proof. intros Hi. unfold u8_store. destruct (Z.ltb_spec i 0); [done | lia]. Qed.

Lemma u8_store_in arr i v : 0 <= i → u8_store arr i v = <[Z.to_nat i := ToUint8 v]> arr.
Proof. intros Hi. unfold u8_store. destruct (Z.ltb_spec i 0); [lia | done]. Qed.

Lemma mutateByteFlip_at input byteIndex bitMask :
  wf_jsstring input → u8 bitMask → 0 <= byteIndex →
  mutateByteFlip input byteIndex bitMask
  = alter (fun b => Z.lxor b bitMask)
          (Z.to_nat (byteIndex mod Z.of_nat (length (TextEncoder_encode input))))
          (TextEncoder_encode input).
Proof.
  intros Hwf Hm Hi. pose proof (TextEncoder_encode_u8 input Hwf) as Henc.
  unfold mutateByteFlip. set (enc := TextEncoder_encode input) in *.
  destruct (Nat.eqb_spec (length enc) 0) as [H0 | Hn].
  { destruct enc; [done | discriminate H0]. }
  set (n := Z.of_nat (length enc)). assert (0 < n) by lia.
  rewrite Z.rem_mod_nonneg by lia.
  pose proof (Z.mod_pos_bound byteIndex n ltac:(lia)) as Hb.
  destruct (lookup_lt_is_Some_2 enc (Z.to_nat (byteIndex mod n)) ltac:(lia)) as [b Hlk].
  assert (u8 b) by (by eapply Forall_lookup_1 in Henc).
  rewrite (u8_load_in enc _ b) by (done || lia). rewrite u8_store_in by lia.
  unfold js_xor. rewrite !ToInt32_u8, ToUint8_small by (done || by apply lxor_u8).
  by apply (insert_as_alter (fun b => Z.lxor b bitMask)).
Qed.


(** X13. For an index that is not negative, [mutateByteFlip] flips the bits of
    the mask in the byte at [byteIndex] modulo the length, wrapping around
    the end of the encoding; an empty encoding is returned as it is. *)
Theorem mutateByteFlip_wraps_index (input : jsstring) (byteIndex bitMask : Z) :
  wf_jsstring input → u8 bitMask → 0 <= byteIndex →
  mutateByteFlip input byteIndex bitMask
  = alter (fun b => Z.lxor b bitMask)
          (Z.to_nat (byteIndex mod Z.of_nat (length (TextEncoder_encode input))))
          (TextEncoder_encode input).
Proof. apply mutateByteFlip_at. Qed.

Lemma mutateByteFlip_wraps_index_witness :
  mutateByteFlip (js "abc") 4 0x20 = [97; 66; 99].
Proof.
  apply (mutateByteFlip_wraps_index (js "abc") 4 0x20);
    [repeat constructor; unfold u16; lia | unfold u8; lia | lia].
Defined.

(** X14. [mutateByteFlip] has no adjustment for a negative index: when
    [byteIndex] is negative and not a multiple of the length, the
    remainder is negative and the store is dropped, so the encoding is
    returned unchanged. *)
Theorem mutateByteFlip_negative_index_is_dropped (input : jsstring) (byteIndex bitMask : Z) :
  byteIndex < 0 →
  Z.rem byteIndex (Z.of_nat (length (TextEncoder_encode input))) ≠ 0 →
  mutateByteFlip input byteIndex bitMask = TextEncoder_encode input.
Proof.
  intros Hneg Hrem. unfold mutateByteFlip.
  destruct (Nat.eqb_spec (length (TextEncoder_encode input)) 0) as [|Hn]; [done |].
  apply u8_store_negative.
  pose proof (Z.rem_nonpos byteIndex (Z.of_nat (length (TextEncoder_encode input)))
                ltac:(lia) ltac:(lia)). lia.
Qed.

Lemma mutateByteFlip_negative_index_is_dropped_witness :
  mutateByteFlip (js "abc") (-1) 1 = [97; 98; 99].
Proof.
  apply (mutateByteFlip_negative_index_is_dropped (js "abc") (-1) 1); [lia | discriminate].
Defined.



Lemma ascii_not_surrogate c :
  0 <= c < 0x80 →
  is_high_surrogate c = false ∧ is_low_surrogate c = false ∧ utf8_code_point c = [c].
Proof.
  intros Hc. unfold is_high_surrogate, is_low_surrogate, utf8_code_point.
  destruct (Z.leb_spec 0xD800 c); [lia |]. destruct (Z.leb_spec 0xDC00 c); [lia |].
  destruct (Z.ltb_spec c 0x80); [done | lia].
Qed.

Lemma TextEncoder_encode_ascii_cons c s :
  0 <= c < 0x80 → TextEncoder_encode (c :: s) = c :: TextEncoder_encode s.
Proof.
  intros Hc. destruct (ascii_not_surrogate c Hc) as (Hh & Hl & Hu).
  by rewrite TextEncoder_encode_cons, Hh, Hl, Hu.
Qed.

Lemma TextEncoder_encode_snoc_aux c n : ∀ s,
  0 <= c < 0x80 → (length s ≤ n)%nat →
  TextEncoder_encode (s ++ [c]) = TextEncoder_encode s ++ [c].
Proof.
  induction n as [|n IH]; intros s Hc Hn.
  - destruct s; [| simpl in Hn; lia]. by rewrite app_nil_l, TextEncoder_encode_ascii_cons.
  - destruct s as [|x rest]; [by rewrite app_nil_l, TextEncoder_encode_ascii_cons |].
    simpl in Hn. destruct (ascii_not_surrogate c Hc) as (_ & Hl & Hu).
    change ((x :: rest) ++ [c]) with (x :: (rest ++ [c])).
    rewrite (TextEncoder_encode_cons x rest), (TextEncoder_encode_cons x (rest ++ [c])).
    destruct (is_high_surrogate x).
    + destruct rest as [|d rest'].
      * cbn [app]. rewrite Hl. by rewrite TextEncoder_encode_ascii_cons.
      * cbn [app]. simpl in Hn. destruct (is_low_surrogate d).
        -- rewrite IH by (done || lia). by rewrite app_assoc.
        -- change (d :: (rest' ++ [c])) with ((d :: rest') ++ [c]).
           rewrite IH by (done || simpl; lia). by rewrite app_assoc.
    + destruct (is_low_surrogate x); rewrite IH by (done || lia); by rewrite app_assoc.
Qed.

Lemma count_diff_refl a : count_diff a a = 0.
Proof. induction a as [|x a IH]; [done |]. simpl. rewrite IH. by case_bool_decide. Qed.

Lemma bit_distance_refl xs : bit_distance xs xs = 0.
Proof.
  induction xs as [|x xs IH]; [done |].
  unfold bit_distance in *. simpl. rewrite IH, Z.lxor_nilpotent. reflexivity.
Qed.

Lemma dist_same_bits results r : bits r = baseBits results → dist results r = 0.
Proof.
  intros Hr. unfold dist. rewrite <- Hr. destruct (bits r) as [|c b] eqn:E; [done |].
  rewrite hamming_count_diff. apply count_diff_refl.
Qed.

(** X16. Each of the two bit-flip variants differs from the encoding of a
    non-empty input in exactly one bit. *)
Theorem flip_variants_differ_in_one_bit (input : jsstring) :
  input ≠ [] → wf_jsstring input →
  bit_distance (TextEncoder_encode input) (mutateByteFlip input 0 0x01) = 1
  ∧ bit_distance (TextEncoder_encode input) (mutateByteFlip input 0 0x80) = 1.
Proof.
  intros Hne Hwf. pose proof (TextEncoder_encode_u8 input Hwf) as Henc.
  pose proof (TextEncoder_encode_nonempty input Hne) as Hnil.
  rewrite !mutateByteFlip_first by (done || unfold u8; lia).
  destruct (TextEncoder_encode input) as [|b rest]; [done |].
  assert (Hone : ∀ m, bit_distance (b :: rest) (alter (fun b => Z.lxor b m) 0%nat (b :: rest))
                      = popcount 8 m).
  { intros m.
    change (bit_distance (b :: rest) (alter (fun b => Z.lxor b m) 0%nat (b :: rest)))
      with (popcount 8 (Z.lxor b (Z.lxor b m)) + bit_distance rest rest).
    rewrite bit_distance_refl, <- Z.lxor_assoc, Z.lxor_nilpotent, Z.lxor_0_l. lia. }
  by rewrite !Hone.
Qed.

Lemma flip_variants_differ_in_one_bit_witness :
  bit_distance (TextEncoder_encode (js "abc")) (mutateByteFlip (js "abc") 0 0x80) = 1.
Proof.
  apply (flip_variants_differ_in_one_bit (js "abc"));
    [discriminate | repeat constructor; unfold u16; lia].
Defined.

Lemma run_rows input :
  run input !! 2%nat
  = Some (Result (js "change first char")
                 (sha256HexFromBytes (mutateCharChange input 0 (js "Z")))
                 (hexToBits (sha256HexFromBytes (mutateCharChange input 0 (js "Z"))))
                 (mutateCharChange input 0 (js "Z")))
  ∧ run input !! 5%nat
    = Some (Result (js "change last char")
                   (sha256HexFromBytes (mutateCharChange input (-1) (js "z")))
                   (hexToBits (sha256HexFromBytes (mutateCharChange input (-1) (js "z"))))
                   (mutateCharChange input (-1) (js "z")))
  ∧ baseBits (run input) = hexToBits (sha256HexFromBytes (TextEncoder_encode input)).
Proof. repeat split; reflexivity. Qed.

(** X17. The two character changes can leave the input as it is.  When the
    input starts with [Z] the row [change first char] has the bytes of the
    original and reports distance 0; when it ends with [z] the same holds
    for the row [change last char]. *)
Theorem change_variants_can_change_nothing (input : jsstring) (r : result) :
  (head input = Some 0x5A → run input !! 2%nat = Some r →
   bytes r = TextEncoder_encode input ∧ dist (run input) r = 0)
  ∧ (last input = Some 0x7A → run input !! 5%nat = Some r →
     bytes r = TextEncoder_encode input ∧ dist (run input) r = 0).
Proof.
  destruct (run_rows input) as (R2 & R5 & Rbase).
  split.
  - intros Hhead Hr. rewrite R2 in Hr. injection Hr as <-.
    assert (E : mutateCharChange input 0 (js "Z") = TextEncoder_encode input).
    { rewrite mutateCharChange_first. destruct input as [|c rest]; [done |].
      injection Hhead as ->. rewrite TextEncoder_encode_ascii_cons by lia. done. }
    split; [exact E |]. apply dist_same_bits. rewrite Rbase.
    cbn [bits]. by rewrite E.
  - intros Hlast Hr. rewrite R5 in Hr. injection Hr as <-.
    assert (E : mutateCharChange input (-1) (js "z") = TextEncoder_encode input).
    { rewrite mutateCharChange_last. apply last_Some in Hlast as [s ->].
      rewrite (TextEncoder_encode_snoc_aux 0x7A (length s)) by lia.
      rewrite length_app. simpl length.
      replace (pred (length (TextEncoder_encode s) + 1)) with
        (length (TextEncoder_encode s) + 0)%nat by lia.
      by rewrite insert_app_r. }
    split; [exact E |]. apply dist_same_bits. rewrite Rbase.
    cbn [bits]. by rewrite E.
Qed.

Lemma change_variants_can_change_nothing_witness :
  ∃ r, run (js "Zoo") !! 2%nat = Some r ∧ bytes r = [90; 111; 111] ∧ dist (run (js "Zoo")) r = 0.
Proof.
  eexists. split; [reflexivity |].
  eapply (proj1 (change_variants_can_change_nothing (js "Zoo") _)); reflexivity.
Defined.

Lemma to_lower_hex_digit c :
  is_Some (hex_digit_value (to_lower_hex c)) → is_Some (hex_digit_value c).
Proof.
  unfold to_lower_hex. destruct ((65 <=? c) && (c <=? 70)) eqn:E; [| done].
  intros _. apply andb_prop in E as [H1 H2]. unfold hex_digit_value.
  destruct (Z.leb_spec 48 c); [| lia]. destruct (Z.leb_spec c 57); [lia |]. simpl.
  destruct (Z.leb_spec 97 c); [lia |]. simpl. rewrite H1, H2. by eexists.
Qed.

Lemma valid_hex_of_lower t : valid_hex (map to_lower_hex t) → valid_hex t.
Proof.
  intros [Heven Hd]. rewrite length_map in Heven. split; [done |].
  apply Forall_forall. intros c Hc. apply to_lower_hex_digit.
  rewrite Forall_forall in Hd. apply Hd.
  apply list_elem_of_In, in_map, list_elem_of_In, Hc.
Qed.

(** ** The signature component *)

Lemma truthy_bufferToHex sig : Forall u8 sig → sig ≠ [] → truthy (bufferToHex sig) = true.
Proof.
  intros Hsig Hne. destruct Hsig as [|b sig Hb _]; [done |].
  by rewrite bufferToHex_cons.
Qed.

Lemma truthy_app (a b : jsstring) : truthy a = true → truthy (a ++ b) = true.
Proof. by destruct a. Qed.

Lemma truthy_map (f : Z → Z) (a : jsstring) : truthy (map f a) = truthy a.
Proof. by destruct a. Qed.

Section SignatureDemoProperties.
Context {PrivateKey PublicKey Entropy : Type}.
Variable subtle_generateKey : Entropy → PrivateKey * PublicKey.
Variable subtle_sign : PrivateKey → list Z → Entropy → list Z.
Variable subtle_verify : PublicKey → list Z → list Z → bool.

(** X18. Signing and then verifying through the component checks exactly the
    bytes the provider produced, for the message that was signed: the
    passage of the signature through its hex text loses nothing. *)
Theorem sign_then_verify_checks_the_signature
    (s : demo PrivateKey PublicKey) (kp : KeyPair PrivateKey PublicKey) (e : Entropy) :
  keyPair s = Some kp →
  let sig := subtle_sign (privateKey kp) (TextEncoder_encode (message s)) e in
  Forall u8 sig → sig ≠ [] →
  signature (handleSign subtle_sign e s) = bufferToHex sig
  ∧ isValid (handleVerify subtle_verify (handleSign subtle_sign e s))
    = Some (subtle_verify (publicKey kp) sig (TextEncoder_encode (message s))).
Proof.
  intros Hkp sig Hsig Hne. unfold handleSign, handleVerify. rewrite Hkp.
  cbn [keyPair signature message isValid].
  unfold signMessage. fold sig. split; [done |].
  rewrite truthy_bufferToHex by done. cbn [isValid].
  unfold verifySignature. by rewrite hexToBuffer_of_bufferToHex.
Qed.

(** X19. A handler whose guard fails leaves the state as it is: every handler
    without a key pair, the two handlers that verify the current signature
    while there is none, and the tampered-signature handler while the
    tampered text is empty. *)
Theorem handlers_do_nothing_when_guarded (s : demo PrivateKey PublicKey) (e : Entropy) :
  (keyPair s = None →
   handleSign subtle_sign e s = s ∧ handleVerify subtle_verify s = s
   ∧ handleVerifyTamperedMessage subtle_verify s = s
   ∧ handleVerifyTamperedSignature subtle_verify s = s)
  ∧ (signature s = [] →
     handleVerify subtle_verify s = s ∧ handleVerifyTamperedMessage subtle_verify s = s)
  ∧ (tamperedSignature s = [] → handleVerifyTamperedSignature subtle_verify s = s).
Proof.
  unfold handleSign, handleVerify, handleVerifyTamperedMessage,
    handleVerifyTamperedSignature.
  split; [intros ->; done |].
  split; [intros -> | intros ->]; destruct (keyPair s); done.
Qed.

(** X20. What is displayed after each handler that passes its guard.  Signing
    clears every banner.  Verifying the original message never shows a
    failure banner, whatever the result.  Verifying a tampered message
    shows [message changed] exactly when the check fails and the tampered
    text is not empty, and never [signature changed]; verifying a
    tampered signature shows [signature changed] exactly when the check
    fails, and never [message changed].  The banner [VALID] follows the
    result of the last check, also of a check on tampered input. *)
Theorem banners_after_handlers
    (s : demo PrivateKey PublicKey) (kp : KeyPair PrivateKey PublicKey) (e : Entropy) :
  keyPair s = Some kp →
  (let s' := handleSign subtle_sign e s in
   shows_valid s' = false ∧ shows_message_changed s' = false
   ∧ shows_signature_changed s' = false)
  ∧ (truthy (signature s) = true →
     let s1 := handleVerify subtle_verify s in
     let s2 := handleVerifyTamperedMessage subtle_verify s in
     shows_message_changed s1 = false ∧ shows_signature_changed s1 = false
     ∧ Some (shows_valid s1) = isValid s1
     ∧ shows_signature_changed s2 = false
     ∧ Some (shows_valid s2) = isValid s2
     ∧ shows_message_changed s2 = negb (shows_valid s2) && truthy (tamperedMessage s))
  ∧ (truthy (signature s) = true → truthy (tamperedSignature s) = true →
     let s3 := handleVerifyTamperedSignature subtle_verify s in
     shows_message_changed s3 = false
     ∧ Some (shows_valid s3) = isValid s3
     ∧ shows_signature_changed s3 = negb (shows_valid s3)).
Proof.
  intros Hkp.
  unfold handleSign, handleVerify, handleVerifyTamperedMessage,
    handleVerifyTamperedSignature, shows_valid, shows_message_changed,
    shows_signature_changed.
  rewrite Hkp. split; [| split].
  - cbn [signature isValid tamperedMessage tamperedSignature].
    rewrite !andb_false_r. done.
  - intros Hsig. rewrite Hsig.
    cbn [signature isValid tamperedMessage tamperedSignature]. rewrite Hsig.
    destruct (verifySignature subtle_verify (message s) _ _);
      destruct (verifySignature subtle_verify (tamperedMessage s) _ _);
      destruct (truthy (tamperedMessage s)); done.
  - intros Hsig Ht. rewrite Ht.
    cbn [signature isValid tamperedMessage tamperedSignature]. rewrite Hsig, Ht.
    destruct (verifySignature subtle_verify (message s) _ _); done.
Qed.

(** X21. A tampered signature text that differs from the signature shown only
    in the letter case of its hex digits, in any mix of upper and lower
    case, with or without one extra character at its end, is checked as
    the signature itself: it gets the verdict of the untampered check. *)
Theorem altered_signature_text_gets_the_same_verdict
    (s : demo PrivateKey PublicKey) (sig : list Z) (t tail : jsstring) :
  Forall u8 sig → sig ≠ [] → signature s = bufferToHex sig →
  tamperedSignature s = t ++ tail →
  map to_lower_hex t = signature s → (length tail ≤ 1)%nat →
  isValid (handleVerifyTamperedSignature subtle_verify s)
  = isValid (handleVerify subtle_verify s).
Proof.
  intros Hsig Hne Hs Ht Hcase Htail.
  pose proof (truthy_bufferToHex sig Hsig Hne) as Htr.
  pose proof (bufferToHex_valid sig Hsig) as Hvalid. rewrite <- Hs, <- Hcase in Hvalid.
  apply valid_hex_of_lower in Hvalid.
  unfold handleVerifyTamperedSignature, handleVerify.
  destruct (keyPair s) as [kp|]; [| done].
  assert (Htt : truthy (tamperedSignature s) = true).
  { rewrite Ht. apply truthy_app. rewrite <- (truthy_map to_lower_hex), Hcase, Hs. done. }
  assert (Hdec : hexToBuffer (tamperedSignature s) = hexToBuffer (signature s)).
  { rewrite Ht, hexToBuffer_app by apply Hvalid.
    rewrite (hexToBuffer_short tail Htail), app_nil_r, <- Hcase.
    symmetry. apply (proj2 (hexToBuffer_case t Hvalid)). }
  rewrite Htt, Hs, Htr, <- Hs, Hdec. done.
Qed.

(** X22. In every state the component can reach, the signature text is the hex
    encoding of a byte sequence, so it decodes back to exactly those bytes
    and re-encodes to itself; and a signature or a verdict is present only
    once the key pair is. *)
Theorem reachable_states_keep_a_decodable_signature (events : list (event Entropy)) :
  (∀ k d e, Forall u8 (subtle_sign k d e)) →
  let s := foldl (step subtle_generateKey subtle_sign subtle_verify) initial events in
  valid_hex (signature s)
  ∧ bufferToHex (hexToBuffer (signature s)) = signature s
  ∧ (truthy (signature s) = true → is_Some (keyPair s))
  ∧ (is_Some (isValid s) → is_Some (keyPair s)).
Proof.
  intros Hbytes.
  set (inv := fun s : demo PrivateKey PublicKey =>
         (∃ sig, Forall u8 sig ∧ signature s = bufferToHex sig)
         ∧ (truthy (signature s) = true → is_Some (keyPair s))
         ∧ (is_Some (isValid s) → is_Some (keyPair s))).
  assert (Hstep : ∀ s ev, inv s →
            inv (step subtle_generateKey subtle_sign subtle_verify s ev)).
  { intros s ev (Hsig & Hk1 & Hk2). unfold inv.
    destruct ev; cbn [step];
      unfold handleSign, handleVerify, handleVerifyTamperedMessage,
        handleVerifyTamperedSignature;
      try (destruct (keyPair s) as [kp|] eqn:Ekp; [| by rewrite ?Ekp]);
      try (destruct (truthy (signature s)) eqn:Es; [| by rewrite ?Ekp]);
      try (destruct (truthy (tamperedSignature s)) eqn:Et; [| by rewrite ?Ekp]);
      cbn [signature keyPair isValid]; rewrite ?Ekp; try done.
    split; [| done]. eexists. split; [apply Hbytes | reflexivity]. }
  assert (Hall : ∀ s, inv s →
            inv (foldl (step subtle_generateKey subtle_sign subtle_verify) s events)).
  { induction events as [|ev evs IH]; intros s Hs; [done |]. by apply IH, Hstep. }
  assert (Hinit : inv (@initial PrivateKey PublicKey)).
  { split; [exists []; by split |]. split; [done |]. by intros [v Hv]. }
  destruct (Hall _ Hinit) as ((sig & Hsig & Hs) & Hk1 & Hk2).
  cbv zeta. rewrite Hs in *.
  split; [by apply bufferToHex_valid |].
  split; [by rewrite hexToBuffer_of_bufferToHex |]. done.
Qed.

End SignatureDemoProperties.

Lemma digest_sign_bytes k d e : Forall u8 (digest_sign k d e) ∧ digest_sign k d e ≠ [].
Proof.
  unfold digest_sign. split; [apply digest_u8 |].
  intros H. pose proof (digest_length (k :: d)) as Hl. rewrite H in Hl. discriminate Hl.
Qed.

Lemma sign_then_verify_checks_the_signature_witness :
  isValid (handleVerify digest_verify (handleSign digest_sign 0 sample_demo))
  = Some (digest_verify 7 (digest_sign 7 (TextEncoder_encode (js "Sign this message")) 0)
                        (TextEncoder_encode (js "Sign this message"))).
Proof.
  apply (sign_then_verify_checks_the_signature digest_sign digest_verify sample_demo
           (Build_KeyPair Z Z 7 7) 0 eq_refl);
    apply digest_sign_bytes.
Defined.

Lemma handlers_do_nothing_when_guarded_witness :
  handleVerify digest_verify (@initial Z Z) = initial.
Proof.
  apply (handlers_do_nothing_when_guarded digest_sign digest_verify (@initial Z Z) 0).
  reflexivity.
Defined.

Lemma banners_after_handlers_witness :
  shows_message_changed (handleVerify digest_verify sample_demo) = false
  ∧ shows_signature_changed (handleVerify digest_verify sample_demo) = false.
Proof.
  destruct (banners_after_handlers digest_sign digest_verify sample_demo
              (Build_KeyPair Z Z 7 7) 0 eq_refl) as (_ & H & _).
  destruct (H eq_refl) as (H1 & H2 & _). split; [exact H1 | exact H2].
Defined.

Lemma altered_signature_text_gets_the_same_verdict_witness :
  isValid (handleVerifyTamperedSignature digest_verify mixed_case_demo)
  = isValid (handleVerify digest_verify mixed_case_demo).
Proof.
  apply (altered_signature_text_gets_the_same_verdict digest_verify mixed_case_demo
           [10; 255] (js "0aFf") (js "z")).
  - repeat constructor; unfold u8; lia.
  - discriminate.
  - reflexivity.
  - reflexivity.
  - reflexivity.
  - simpl. lia.
Defined.

Lemma reachable_states_keep_a_decodable_signature_witness :
  valid_hex
    (signature
       (foldl (step digest_generateKey digest_sign digest_verify) initial
              [Mount 7; Sign 0; SetTamperedSignature (js "zz"); VerifyTamperedSignature])).
Proof.
  apply (reachable_states_keep_a_decodable_signature
           digest_generateKey digest_sign digest_verify
           [Mount 7; Sign 0; SetTamperedSignature (js "zz"); VerifyTamperedSignature]).
  intros k d e. apply digest_sign_bytes.
Defined.

(** ** Further edge cases of the hex codecs *)

Lemma parseInt16_after_space c1 c2 :
  is_white_space c1 = true → is_Some (hex_digit_value c2) →
  ToUint8 (parseInt16 [c1; c2]) = hex_value c2.
Proof.
  intros Hw H2. unfold parseInt16. cbn [trim_start].
  rewrite Hw, (hex_digit_not_space c2 H2).
  apply hex_digit_value_codes in H2.
  assert (Hl : hex_digit_codes
               = [48; 49; 50; 51; 52; 53; 54; 55; 56; 57; 65; 66; 67; 68; 69; 70;
                  97; 98; 99; 100; 101; 102]) by reflexivity.
  rewrite Hl in H2. clear Hl.
  repeat (apply elem_of_cons in H2 as [-> | H2]; [reflexivity |]).
  by apply elem_of_nil in H2.
Qed.

Lemma parseInt16_after_sign c2 :
  is_Some (hex_digit_value c2) →
  ToUint8 (parseInt16 [43; c2]) = hex_value c2
  ∧ ToUint8 (parseInt16 [45; c2]) = (- hex_value c2) mod 256.
Proof.
  intros H2.
  apply (hex_codes_forallb
           (fun c2 => bool_decide
              (ToUint8 (parseInt16 [43; c2]) = hex_value c2
               ∧ ToUint8 (parseInt16 [45; c2]) = (- hex_value c2) mod 256))) in H2;
    [by apply bool_decide_eq_true in H2 | by vm_compute].
Qed.

(** X23. Distinct byte sequences have distinct hex texts. *)
Theorem bufferToHex_injective (a b : list Z) :
  Forall u8 a → Forall u8 b → bufferToHex a = bufferToHex b → a = b.
Proof.
  intros Ha Hb Heq.
  rewrite <- (hexToBuffer_of_bufferToHex a Ha), <- (hexToBuffer_of_bufferToHex b Hb).
  by rewrite Heq.
Qed.

Lemma bufferToHex_injective_witness : [1; 35] = hexToBuffer (js "0123").
Proof.
  apply (bufferToHex_injective [1; 35] (hexToBuffer (js "0123")));
    [repeat constructor; unfold u8; lia | apply hexToBuffer_u8 | reflexivity].
Defined.

(** X24. A pair made of white space or a sign and one hex digit is read as a
    one-digit number: the value of the digit after white space or [+],
    and its negation modulo 256 after [-], so ["-1"] is the byte 255. *)
Theorem hexToBuffer_reads_signs_and_spaces (hex : jsstring) (k : nat) (c1 c2 : Z) :
  hex !! (2 * k)%nat = Some c1 → hex !! S (2 * k) = Some c2 →
  is_Some (hex_digit_value c2) →
  ((is_white_space c1 = true ∨ c1 = 43) → hexToBuffer hex !! k = Some (hex_value c2))
  ∧ (c1 = 45 → hexToBuffer hex !! k = Some ((- hex_value c2) mod 256)).
Proof.
  intros H1 H2 Hd. rewrite (hexToBuffer_lookup_pair hex k c1 c2 H1 H2).
  destruct (parseInt16_after_sign c2 Hd) as [Hplus Hminus]. split.
  - intros [Hw | ->]; f_equal; [by apply parseInt16_after_space | exact Hplus].
  - intros ->. f_equal. exact Hminus.
Qed.

Lemma hexToBuffer_reads_signs_and_spaces_witness :
  hexToBuffer (js "-1 f") !! 0%nat = Some 255 ∧ hexToBuffer (js "-1 f") !! 1%nat = Some 15.
Proof.
  split.
  - apply (hexToBuffer_reads_signs_and_spaces (js "-1 f") 0 45 49); try reflexivity.
    by eexists.
  - apply (hexToBuffer_reads_signs_and_spaces (js "-1 f") 1 32 102); try reflexivity.
    + by eexists.
    + by left.
Defined.
